(** * Region labelling and spawn sampling of [home_platform/env.py]

    A shallow embedding of [extractAllRegions],
    [BasicEnvironment.generateOccupancyMap] and
    [BasicEnvironment.generateSpawnPositions], and the properties of the
    occupancy-grid subsystem proved about them.

    Conventions of the embedding.
    - A two-dimensional numpy array is a list of rows; a well-formed array is
      rectangular ([rect]).  Python and numpy integers are [Z].
    - Python floats are exact rationals [Q]; the only non-finite values the
      code can produce come from the division by the total area, and are the
      extra constructors of [npfloat].
    - An uncaught exception is [Raise cls], [cls] being the name of the
      exception class.  [while] loops run on fuel; the fuel is fixed from the
      size of the grid inside [extractAllRegions] and shown to be enough.
    - [heapq] is a priority queue over a total order with distinct items; it
      is kept as an ascending list, so that [heappop] is the head.
    - [np.random] is a pair of tapes, one read by [random] and one by
      [randint], each with its read position. *)

From Stdlib Require Import ZArith QArith Qround Lia Lqa.
From stdpp Require Import base tactics option list sets gmap strings relations sorting.

Close Scope Q_scope.
Local Open Scope Z_scope.

(** ** Outcomes of a call *)

Inductive outcome (A : Type) : Type :=
| Ret (a : A)
| Raise (cls : string)
| OutOfFuel.
Arguments Ret {A} a.
Arguments Raise {A} cls.
Arguments OutOfFuel {A}.

#[global] Instance outcome_ret : MRet outcome := λ A a, Ret a.
#[global] Instance outcome_bind : MBind outcome := λ A B k m,
  match m with
  | Ret a => k a
  | Raise cls => Raise cls
  | OutOfFuel => OutOfFuel
  end.

(** ** numpy arrays *)

Module np.

Abbreviation ndarray A := (list (list A)).

Abbreviation Cell := (Z * Z)%type.

Definition shape0 {A} (a : ndarray A) : Z := Z.of_nat (length a).

Definition shape1 {A} (a : ndarray A) : Z :=
  match a with
  | [] => 0
  | row :: _ => Z.of_nat (length row)
  end.

(** Every row has [shape1] entries. *)
Definition rect {A} (a : ndarray A) : Prop :=
  Forall (λ row : list A, Z.of_nat (length row) = shape1 a) a.

Definition size {A} (a : ndarray A) : nat := length (concat a).

(** [a[i, j]] for [0 <= i < shape0] and [0 <= j < shape1].  The code reads
    a cell only behind its bounds test or at an index taken from
    [argwhere]; outside the bounds the model answers [None]. *)
Definition getitem {A} (a : ndarray A) (i j : Z) : option A :=
  if (0 <=? i) && (0 <=? j)
  then row ← a !! Z.to_nat i; row !! Z.to_nat j
  else None.

Definition at_ {A} (a : ndarray A) (c : Cell) : option A := getitem a c.1 c.2.

(** [a[i, j] = v] *)
Definition setitem {A} (a : ndarray A) (i j : Z) (v : A) : ndarray A :=
  alter (λ row, <[Z.to_nat j := v]> row) (Z.to_nat i) a.

(** [a == v] and [a != v] *)
Definition eq (a : ndarray Z) (v : Z) : ndarray bool := map (map (λ x, x =? v)) a.
Definition ne (a : ndarray Z) (v : Z) : ndarray bool := map (map (λ x, negb (x =? v))) a.

(** [a[m] = v] for a boolean mask [m] of the shape of [a] *)
Definition mask_assign {A} (a : ndarray A) (m : ndarray bool) (v : A) : ndarray A :=
  zip_with (zip_with (λ x (b : bool), if b then v else x)) a m.

Definition count_nonzero (m : ndarray bool) : Z :=
  Z.of_nat (length (filter (λ b : bool, b = true) (concat m))).

Definition all (m : ndarray bool) : bool := forallb (forallb id) m.

(** [np.argwhere(m)]: the indices of the true cells, in row-major order *)
Fixpoint argwhere_row (i j : Z) (row : list bool) : list Cell :=
  match row with
  | [] => []
  | b :: row' => (if b then [(i, j)] else []) ++ argwhere_row i (j + 1) row'
  end.

Fixpoint argwhere_from (i : Z) (m : ndarray bool) : list Cell :=
  match m with
  | [] => []
  | row :: m' => argwhere_row i 0 row ++ argwhere_from (i + 1) m'
  end.

Definition argwhere (m : ndarray bool) : list Cell := argwhere_from 0 m.

(** [np.argwhere] of a one-dimensional mask *)
Fixpoint argwhere1_from (k : Z) (m : list bool) : list Z :=
  match m with
  | [] => []
  | b :: m' => (if b then [k] else []) ++ argwhere1_from (k + 1) m'
  end.

Definition argwhere1 (m : list bool) : list Z := argwhere1_from 0 m.

(** [np.max(a)]; a zero-size array has no maximum *)
Definition max (a : ndarray Z) : outcome Z :=
  match concat a with
  | [] => Raise "ValueError"
  | x :: l => Ret (foldl Z.max x l)
  end.

(** [np.zeros(a.shape)] *)
Definition zeros_like {A} (a : ndarray A) : ndarray Q :=
  replicate (length a) (replicate (Z.to_nat (shape1 a)) 0%Q).

End np.

Abbreviation Cell := np.Cell.

(** ** heapq over index pairs *)

(** Python's order on tuples *)
Definition cell_ltb (a b : Cell) : bool :=
  (a.1 <? b.1) || ((a.1 =? b.1) && (a.2 <? b.2)).

Definition cell_lt (a b : Cell) : Prop := a.1 < b.1 ∨ (a.1 = b.1 ∧ a.2 < b.2).

Fixpoint heappush (heap : list Cell) (x : Cell) : list Cell :=
  match heap with
  | [] => [x]
  | y :: heap' => if cell_ltb y x then y :: heappush heap' x else x :: heap
  end.

Definition heappop (heap : list Cell) : option (Cell * list Cell) :=
  match heap with
  | [] => None
  | x :: heap' => Some (x, heap')
  end.

(** ** extractAllRegions *)

(** One turn of [for ai, aj in ...]: the bounds test, then the occupancy and
    redundancy test. *)
Definition visitNeighbor (grid : np.ndarray Z)
    (st : list Cell * gset Cell) (n : Cell) : list Cell * gset Cell :=
  let '(ai, aj) := n in
  if (0 <=? ai) && (ai <? np.shape0 grid) && (0 <=? aj) && (aj <? np.shape1 grid) then
    if bool_decide (np.getitem grid ai aj = Some 0) && bool_decide ((ai, aj) ∉ st.2)
    then (heappush st.1 (ai, aj), st.2 ∪ {[ (ai, aj) ]})
    else st
  else st.

Definition neighbors (i j : Z) : list Cell :=
  [(i + 1, j); (i - 1, j); (i, j + 1); (i, j - 1)].

(** [while len(heap) > 0: ...] *)
Fixpoint grassfire (fuel : nat) (grid : np.ndarray Z) (heap : list Cell)
    (visited : gset Cell) (curRegionId : Z) : outcome (np.ndarray Z) :=
  match fuel with
  | O => OutOfFuel
  | S fuel' =>
      match heappop heap with
      | None => Ret grid
      | Some ((i, j), heap1) =>
          let grid1 := np.setitem grid i j curRegionId in
          let st := foldl (visitNeighbor grid1) (heap1, visited) (neighbors i j) in
          grassfire fuel' grid1 st.1 st.2 curRegionId
      end
  end.

(** [while np.count_nonzero(occupacyGrid == 0) > 0: ...]; returns the grid
    and the final [curRegionId]. *)
Fixpoint labelLoop (fuel : nat) (grid : np.ndarray Z) (curRegionId : Z)
    : outcome (np.ndarray Z * Z) :=
  match fuel with
  | O => OutOfFuel
  | S fuel' =>
      if 0 <? np.count_nonzero (np.eq grid 0) then
        match np.argwhere (np.eq grid 0) with
        | [] => Raise "IndexError"
        | start :: _ =>
            grid1 ← grassfire (S (np.size grid)) grid (heappush [] start) {[ start ]} curRegionId;
            labelLoop fuel' grid1 (curRegionId + 1)
        end
      else Ret (grid, curRegionId)
  end.

(** The array after [occupacyGrid[occupacyGrid != 0] = -1]. *)
Definition markOccupied (occupacyGrid : np.ndarray Z) : np.ndarray Z :=
  np.mask_assign occupacyGrid (np.ne occupacyGrid 0) (-1).

Definition extractAllRegions (occupacyGrid : np.ndarray Z) : outcome (np.ndarray Z) :=
  let grid := markOccupied occupacyGrid in
  '(grid1, curRegionId) ← labelLoop (S (np.size grid)) grid 1;
  if np.all (np.ne grid1 0) then Ret grid1 else Raise "AssertionError".

(** ** Floats after a division *)

(** [x / t] in numpy does not raise on [t = 0]: it yields an infinity or a
    NaN.  The areas themselves are finite. *)
Inductive npfloat : Type :=
| Fin (q : Q)
| PInf
| NInf
| NaN.

Definition Qltb (x y : Q) : bool := negb (Qle_bool y x).

Definition true_divide (a t : Q) : npfloat :=
  if Qeq_bool t 0 then
    if Qeq_bool a 0 then NaN else if Qltb 0 a then PInf else NInf
  else Fin (a / t)%Q.

Definition fadd (x y : npfloat) : npfloat :=
  match x, y with
  | NaN, _ | _, NaN => NaN
  | PInf, NInf | NInf, PInf => NaN
  | PInf, _ | _, PInf => PInf
  | NInf, _ | _, NInf => NInf
  | Fin a, Fin b => Fin (a + b)%Q
  end.

(** [x < r] for a finite [r]; false on NaN *)
Definition flt (x : npfloat) (r : Q) : bool :=
  match x with
  | Fin a => Qltb a r
  | NInf => true
  | PInf | NaN => false
  end.

Fixpoint cumsum_from (acc : npfloat) (l : list npfloat) : list npfloat :=
  match l with
  | [] => []
  | x :: l' => fadd acc x :: cumsum_from (fadd acc x) l'
  end.

(** [np.cumsum] *)
Definition cumsum (l : list npfloat) : list npfloat :=
  match l with
  | [] => []
  | x :: l' => x :: cumsum_from x l'
  end.

(** [np.sum] of an array of finite floats *)
Definition fsum (l : list Q) : Q := foldl Qplus 0%Q l.

(** ** np.random *)

Record RandomState : Type := mkRandomState {
  floatTape : nat → Q;
  intTape : nat → Z;
  floatPos : nat;
  intPos : nat;
}.

Definition Qfrac (q : Q) : Q := (q - inject_Z (Qfloor q))%Q.

(** [np.random.random()]: the next entry of the float tape, brought into
    [[0, 1)]. *)
Definition random (g : RandomState) : Q * RandomState :=
  (Qfrac (floatTape g (floatPos g)),
   mkRandomState (floatTape g) (intTape g) (S (floatPos g)) (intPos g)).

(** [np.random.randint(low, high)]: the next entry of the integer tape,
    brought into [[low, high)]; an empty range is a [ValueError]. *)
Definition randint (low high : Z) (g : RandomState) : outcome (Z * RandomState) :=
  if low <? high then
    Ret (low + intTape g (intPos g) `mod` (high - low),
         mkRandomState (floatTape g) (intTape g) (floatPos g) (S (intPos g)))
  else Raise "ValueError".

(** ** BasicEnvironment *)

Abbreviation CoordMap := (np.ndarray (Q * Q)).

(** The attributes of [self] the two methods use.  [physicWorld] stands for
    [self.physicWorld.calculate2dNavigationMap(self.agent, z, precision)],
    which belongs to the physics backend: it yields the occupancy map, with
    its cells as the integers [astype(np.int)] makes of them, and the
    coordinate map. *)
Record BasicEnvironment : Type := mkEnv {
  physicWorld : Q → Q → np.ndarray Z * CoordMap;
  labeledNavMap : option (np.ndarray Z);
  occupancyMapCoord : option CoordMap;
}.

(** Reading an attribute that is still [None] where an array is needed. *)
Definition attr {A} (o : option A) : outcome A :=
  match o with
  | Some a => Ret a
  | None => Raise "TypeError"
  end.

(** The state of [for r in range(1, nbRegions + 1)] in
    [generateOccupancyMap]: the map, [curValidRegionId], [regionAreas]. *)
Definition filterStep (cellArea minRegionArea : Q)
    (st : np.ndarray Z * Z * list Q) (r : Z) : np.ndarray Z * Z * list Q :=
  let '(labeled, curValidRegionId, regionAreas) := st in
  let nbCells := np.count_nonzero (np.eq labeled r) in
  let regionArea := (inject_Z nbCells * cellArea)%Q in
  if Qltb regionArea minRegionArea then
    (np.mask_assign labeled (np.eq labeled r) (-1), curValidRegionId, regionAreas)
  else
    (np.mask_assign labeled (np.eq labeled r) curValidRegionId,
     curValidRegionId + 1, regionAreas ++ [regionArea]).

Definition filterRegions (cellArea minRegionArea : Q) (nbRegions : Z)
    (labeled : np.ndarray Z) : np.ndarray Z * Z * list Q :=
  foldl (filterStep cellArea minRegionArea) (labeled, 1, []) (seqZ 1 nbRegions).

Definition generateOccupancyMap (self : BasicEnvironment)
    (minRegionArea z precision : Q)
    : outcome (BasicEnvironment * (np.ndarray Z * CoordMap)) :=
  let cellArea := (precision ^ 2)%Q in
  let '(occupancyMap, coordMap) := physicWorld self z precision in
  labeled ← extractAllRegions occupancyMap;
  nbRegions ← np.max labeled;
  let '(labeled1, curValidRegionId, regionAreas) :=
    filterRegions cellArea minRegionArea nbRegions labeled in
  if np.all (np.ne labeled1 0) then
    Ret (mkEnv (physicWorld self) (Some labeled1) (Some coordMap), (labeled1, coordMap))
  else Raise "AssertionError".

(** The region of one draw: [selRegionId]. *)
Definition selectRegion (s : list npfloat) (g : RandomState)
    : outcome (Z * RandomState) :=
  if 1 <? Z.of_nat (length s) then
    let '(r, g1) := random g in
    match last (np.argwhere1 (map (λ x, flt x r) s)) with
    | None => Raise "IndexError"
    | Some k => Ret (k + 1 + 1, g1)
    end
  else Ret (1, g).

(** One turn of [for _ in range(n)]. *)
Definition drawPosition (labeled : np.ndarray Z) (coordMap : CoordMap)
    (s : list npfloat) (g : RandomState) : outcome ((Q * Q) * RandomState) :=
  '(selRegionId, g1) ← selectRegion s g;
  let coord := np.argwhere (np.eq labeled selRegionId) in
  '(r, g2) ← randint 0 (Z.of_nat (length coord)) g1;
  match coord !! Z.to_nat r with
  | None => Raise "IndexError"
  | Some (i, j) =>
      match np.getitem coordMap i j with
      | None => Raise "IndexError"
      | Some xy => Ret (xy, g2)
      end
  end.

Fixpoint drawPositions (n : nat) (labeled : np.ndarray Z) (coordMap : CoordMap)
    (s : list npfloat) (positions : list (Q * Q)) (g : RandomState)
    : outcome (list (Q * Q) * RandomState) :=
  match n with
  | O => Ret (positions, g)
  | S n' =>
      '(xy, g1) ← drawPosition labeled coordMap s g;
      drawPositions n' labeled coordMap s (positions ++ [xy]) g1
  end.

(** [regionAreas] of [generateSpawnPositions], before the division. *)
Definition regionAreasOf (labeled : np.ndarray Z) (cellArea : Q) (nbRegions : Z)
    : list Q :=
  map (λ r, (inject_Z (np.count_nonzero (np.eq labeled r)) * cellArea)%Q)
      (seqZ 1 nbRegions).

(** [s = np.cumsum(regionAreas / np.sum(regionAreas))] *)
Definition cumulativeShares (regionAreas : list Q) : list npfloat :=
  cumsum (map (λ a, true_divide a (fsum regionAreas)) regionAreas).

(** The statements of [generateSpawnPositions] after the call of
    [generateOccupancyMap]. *)
Definition samplePhase (labeled : np.ndarray Z) (coordMap : CoordMap)
    (n : Z) (precision : Q) (g : RandomState)
    : outcome (RandomState * (np.ndarray Q * CoordMap * list (Q * Q))) :=
  let cellArea := (precision ^ 2)%Q in
  nbRegions ← np.max labeled;
  let s := cumulativeShares (regionAreasOf labeled cellArea nbRegions) in
  '(positions, g1) ← drawPositions (Z.to_nat n) labeled coordMap s [] g;
  let occupancyMap :=
    np.mask_assign (np.zeros_like labeled) (np.eq labeled (-1)) 1%Q in
  Ret (g1, (occupancyMap, coordMap, positions)).

Definition generateSpawnPositions (self : BasicEnvironment) (n : Z)
    (minRegionArea z precision : Q) (g : RandomState)
    : outcome (BasicEnvironment * RandomState *
               (np.ndarray Q * CoordMap * list (Q * Q))) :=
  '(self1, _) ← generateOccupancyMap self minRegionArea z precision;
  labeled ← attr (labeledNavMap self1);
  coordMap ← attr (occupancyMapCoord self1);
  '(g1, result) ← samplePhase labeled coordMap n precision g;
  Ret (self1, g1, result).

(** ** extractAllRegions on references *)

(** The same function with the arrays held in a store of objects and the
    variables holding references, as Python has them: [astype] allocates
    the array the loops then write to, one cell at a time. *)
Module InPlace.

Abbreviation store := (gmap positive (np.ndarray Z)).

(** [np.atleast_2d(a).astype(np.int)]: a two-dimensional array is returned
    as it is by [atleast_2d], and [astype] copies it to a new object. *)
Definition astype (σ : store) (p : positive) : positive * store :=
  let q := fresh (dom σ) in (q, <[q := σ !!! p]> σ).

Fixpoint grassfire (fuel : nat) (σ : store) (q : positive) (heap : list Cell)
    (visited : gset Cell) (curRegionId : Z) : outcome store :=
  match fuel with
  | O => OutOfFuel
  | S fuel' =>
      match heappop heap with
      | None => Ret σ
      | Some ((i, j), heap1) =>
          let σ1 := <[q := np.setitem (σ !!! q) i j curRegionId]> σ in
          let st := foldl (visitNeighbor (σ1 !!! q)) (heap1, visited) (neighbors i j) in
          grassfire fuel' σ1 q st.1 st.2 curRegionId
      end
  end.

Fixpoint labelLoop (fuel : nat) (σ : store) (q : positive) (curRegionId : Z)
    : outcome (store * Z) :=
  match fuel with
  | O => OutOfFuel
  | S fuel' =>
      if 0 <? np.count_nonzero (np.eq (σ !!! q) 0) then
        match np.argwhere (np.eq (σ !!! q) 0) with
        | [] => Raise "IndexError"
        | start :: _ =>
            σ1 ← grassfire (S (np.size (σ !!! q))) σ q (heappush [] start) {[ start ]} curRegionId;
            labelLoop fuel' σ1 q (curRegionId + 1)
        end
      else Ret (σ, curRegionId)
  end.

(** The caller passes the reference [p]; the reference returned is the one
    the local name [occupacyGrid] is bound to at the end. *)
Definition extractAllRegions (σ : store) (p : positive) : outcome (positive * store) :=
  let '(q, σ0) := astype σ p in
  let σ1 := <[q := np.mask_assign (σ0 !!! q) (np.ne (σ0 !!! q) 0) (-1)]> σ0 in
  '(σ2, curRegionId) ← labelLoop (S (np.size (σ1 !!! q))) σ1 q 1;
  if np.all (np.ne (σ2 !!! q) 0) then Ret (q, σ2) else Raise "AssertionError".

(** The loop of [generateOccupancyMap] writes [self.labeledNavMap[...] = v]
    into the array its reference [q] names. *)
Definition filterStep (q : positive) (cellArea minRegionArea : Q)
    (st : store * Z * list Q) (r : Z) : store * Z * list Q :=
  let '(σ, curValidRegionId, regionAreas) := st in
  let nbCells := np.count_nonzero (np.eq (σ !!! q) r) in
  let regionArea := (inject_Z nbCells * cellArea)%Q in
  if Qltb regionArea minRegionArea then
    (<[q := np.mask_assign (σ !!! q) (np.eq (σ !!! q) r) (-1)]> σ,
     curValidRegionId, regionAreas)
  else
    (<[q := np.mask_assign (σ !!! q) (np.eq (σ !!! q) r) curValidRegionId]> σ,
     curValidRegionId + 1, regionAreas ++ [regionArea]).

(** [generateOccupancyMap] with the occupancy map of the backend at the
    reference [p]; the reference returned is the one [self.labeledNavMap]
    holds. *)
Definition generateOccupancyMap (σ : store) (p : positive)
    (minRegionArea precision : Q) : outcome (positive * store) :=
  let cellArea := (precision ^ 2)%Q in
  '(q, σ1) ← extractAllRegions σ p;
  nbRegions ← np.max (σ1 !!! q);
  let '(σ2, curValidRegionId, regionAreas) :=
    foldl (filterStep q cellArea minRegionArea) (σ1, 1, []) (seqZ 1 nbRegions) in
  if np.all (np.ne (σ2 !!! q) 0) then Ret (q, σ2) else Raise "AssertionError".

End InPlace.

(** ** Regions of an occupancy grid *)

(** A cell of the input is FREE when it holds 0 and OCCUPIED when it holds
    anything else. *)
Definition isFree (occ : np.ndarray Z) (c : Cell) : Prop := np.at_ occ c = Some 0.

Definition isOccupied (occ : np.ndarray Z) (c : Cell) : Prop :=
  ∃ v, np.at_ occ c = Some v ∧ v ≠ 0.

(** Two cells that share an edge. *)
Definition adjacent (a b : Cell) : Prop :=
  Z.abs (a.1 - b.1) + Z.abs (a.2 - b.2) = 1.

Definition freeStep (occ : np.ndarray Z) (a b : Cell) : Prop :=
  isFree occ a ∧ isFree occ b ∧ adjacent a b.

(** A path of 4-adjacent FREE cells. *)
Definition connected (occ : np.ndarray Z) : Cell → Cell → Prop := rtc (freeStep occ).

Definition OCCUPIED_MARK : Z := -1.

(** The number of cells that carry the label [r]. *)
Definition cellCount (labeled : np.ndarray Z) (r : Z) : Z :=
  np.count_nonzero (np.eq labeled r).

(** The first cell, in row-major order, that carries the label [r]. *)
Definition firstCell (labeled : np.ndarray Z) (r : Z) : option Cell :=
  head (np.argwhere (np.eq labeled r)).

(** ** Vocabulary of the proofs *)

(** The number of cells that still hold 0: the measure of both loops. *)
Definition zeros (a : np.ndarray Z) : nat := length (np.argwhere (np.eq a 0)).

(** The grid after the occupied cells were marked holds -1 and 0 only. *)
Definition binaryGrid (G0 : np.ndarray Z) : Prop :=
  ∀ c v, np.at_ G0 c = Some v → v = -1 ∨ v = 0.

(** What holds of the grid between two regions.  [G0] is the grid after the
    occupied cells were marked, [cur] the next region id. *)
Record labelInv (G0 G : np.ndarray Z) (cur : Z) : Prop := {
  li_rect : np.rect G;
  li_size : np.size G = np.size G0;
  li_occ : ∀ c, np.at_ G0 c = Some (-1) → np.at_ G c = Some (-1);
  li_free : ∀ c, np.at_ G0 c = Some 0 →
            ∃ v, np.at_ G c = Some v ∧ (v = 0 ∨ 1 ≤ v < cur);
  li_dom : ∀ c, is_Some (np.at_ G c) → is_Some (np.at_ G0 c);
  li_closed : ∀ a b v, np.at_ G a = Some v → 1 ≤ v → adjacent a b →
              np.at_ G0 b = Some 0 → np.at_ G b = Some v;
  li_sound : ∀ a b v, np.at_ G a = Some v → np.at_ G b = Some v → 1 ≤ v →
             connected G0 a b;
  li_seed : ∀ k, 1 ≤ k < cur →
            ∃ s, np.at_ G s = Some k ∧
                 ∀ c v, cell_lt c s → np.at_ G c = Some v → v = -1 ∨ 1 ≤ v < k;
}.

(** What holds inside the wavefront of region [cur], started at [s] from
    the grid [Gout]. *)
Record fireInv (G0 Gout : np.ndarray Z) (s : Cell) (cur : Z)
    (G : np.ndarray Z) (heap : list Cell) (visited : gset Cell) : Prop := {
  fi_rect : np.rect G;
  fi_size : np.size G = np.size Gout;
  fi_frame : ∀ c, np.at_ G c = np.at_ Gout c ∨
                  (np.at_ Gout c = Some 0 ∧ np.at_ G c = Some cur);
  fi_heap : ∀ c, c ∈ heap → c ∈ visited ∧ np.at_ G c = Some 0;
  fi_nodup : NoDup heap;
  fi_vis : ∀ c, c ∈ visited →
           (c ∈ heap ∨ np.at_ G c = Some cur) ∧ np.at_ Gout c = Some 0 ∧
           connected G0 s c;
  fi_lab : ∀ c, np.at_ G c = Some cur → c ∈ visited;
  fi_closed : ∀ a b, np.at_ G a = Some cur → adjacent a b →
              np.at_ G0 b = Some 0 → b ∈ visited;
  fi_seed : s ∈ visited;
}.

(** What the later steps use of a label grid with the regions 1..R. *)
Record labelled (L : np.ndarray Z) (R : Z) : Prop := {
  lb_R : 0 ≤ R;
  lb_rect : np.rect L;
  lb_values : ∀ c v, np.at_ L c = Some v → v = -1 ∨ 1 ≤ v ≤ R;
  lb_used : ∀ k, 1 ≤ k ≤ R → ∃ c, np.at_ L c = Some k;
  lb_order : ∀ k k', 1 ≤ k → k < k' → k' ≤ R →
             ∃ s s', firstCell L k = Some s ∧ firstCell L k' = Some s' ∧ cell_lt s s';
}.

(** Region [r] of [labeled] passes the test [regionArea < minRegionArea]. *)
Definition survives (cellArea minRegionArea : Q) (labeled : np.ndarray Z) (r : Z) : bool :=
  negb (Qltb (inject_Z (cellCount labeled r) * cellArea)%Q minRegionArea).

(** The value of [curValidRegionId] when the loop reaches [r]. *)
Definition newId (cellArea minRegionArea : Q) (labeled : np.ndarray Z) (r : Z) : Z :=
  1 + Z.of_nat (length (filter (λ r', survives cellArea minRegionArea labeled r' = true)
                               (seqZ 1 (r - 1)))).

(** What the loop has made of the label [v] once it is through [1..m]. *)
Definition rename (cellArea minRegionArea : Q) (labeled : np.ndarray Z) (m v : Z) : Z :=
  if (1 <=? v) && (v <=? m) then
    if survives cellArea minRegionArea labeled v
    then newId cellArea minRegionArea labeled v else -1
  else v.

(** The state of the random source after [k] calls of [randint] and none of
    [random]. *)
Definition afterInts (g : RandomState) (k : nat) : RandomState :=
  mkRandomState (floatTape g) (intTape g) (floatPos g) (intPos g + k).

(** The classes of the exceptions that the model of the two methods raises. *)
Definition pyErrors : list string :=
  ["IndexError"; "AssertionError"; "ValueError"; "TypeError"].

(** An outcome that, if it is an exception, is one of [names]. *)
Definition raisesOnly {A} (names : list string) (o : outcome A) : Prop :=
  ∀ cls, o = Raise cls → cls ∈ names.






(** ** Example inputs *)

(** A grid of four rows and five columns, with three free regions of 4, 8
    and 1 cells. *)
Definition exampleGrid : np.ndarray Z :=
  [[0; 0; 1; 0; 0]; [0; 0; 1; 0; 0]; [1; 1; 1; 1; 0]; [0; 1; 0; 0; 0]].

(** A store that holds the example grid at one reference. *)
Definition exampleStore : InPlace.store := {[ 1%positive := exampleGrid ]}.

(** A coordinate map for the example grid: cell (i, j) lies at (i, j). *)
Definition exampleCoords : CoordMap :=
  map (λ i, map (λ j, (inject_Z i, inject_Z j)) (seqZ 0 5)) (seqZ 0 4).

(** An environment whose physics backend yields the example grid. *)
Definition exampleEnv : BasicEnvironment :=
  mkEnv (λ _ _, (exampleGrid, exampleCoords)) None None.

(** A second coordinate map for the example grid. *)
Definition exampleCoords' : CoordMap :=
  map (λ i, map (λ j, (inject_Z (10 * i), inject_Z (10 * j))) (seqZ 0 5)) (seqZ 0 4).

Definition exampleEnv' : BasicEnvironment :=
  mkEnv (λ _ _, (exampleGrid, exampleCoords')) None None.

(** The example grid, labelled and filtered with the threshold 2. *)
Definition exampleFiltered : np.ndarray Z :=
  [[1; 1; -1; 2; 2]; [1; 1; -1; 2; 2]; [-1; -1; -1; -1; 2]; [-1; -1; 2; 2; 2]].

(** The example grid, labelled and filtered with the threshold 20. *)
Definition exampleEmptied : np.ndarray Z :=
  [[-1; -1; -1; -1; -1]; [-1; -1; -1; -1; -1]; [-1; -1; -1; -1; -1]; [-1; -1; -1; -1; -1]].

(** A random source. *)
Definition exampleRandom : RandomState :=
  mkRandomState (λ k, (Z.of_nat k # 3) + 0.5)%Q (λ k, 7 * Z.of_nat k) 0 0.

(** A random source whose float tape holds [q] everywhere. *)
Definition constantRandom (q : Q) : RandomState :=
  mkRandomState (λ _, q) (λ _, 0) 0 0.

(** An environment whose grid has one free and one occupied cell. *)
Definition narrowEnv : BasicEnvironment :=
  mkEnv (λ _ _, ([[0; 1]], [[(0%Q, 0%Q); (0%Q, 1%Q)]])) None None.



(** A grid of five rows and five columns, all free. *)
Definition openGrid : np.ndarray Z := replicate 5 (replicate 5 0).

(** The same with column 2 occupied. *)
Definition splitGrid : np.ndarray Z := replicate 5 [0; 0; 1; 0; 0].

(** The coordinate map of the five by five grids. *)
Definition squareCoords : CoordMap :=
  map (λ i, map (λ j, (inject_Z i, inject_Z j)) (seqZ 0 5)) (seqZ 0 5).

(** The environments of the two five by five grids. *)
Definition openEnv : BasicEnvironment := mkEnv (λ _ _, (openGrid, squareCoords)) None None.

Definition splitEnv : BasicEnvironment := mkEnv (λ _ _, (splitGrid, squareCoords)) None None.

(** * Proofs *)

(** ** Arrays: reading, writing, shapes *)

Section ndarray.
Context {A : Type}.
Implicit Types (a : np.ndarray A) (i j : Z) (c : Cell).

Lemma rect_row a row :
  np.rect a → row ∈ a → Z.of_nat (length row) = np.shape1 a.
Proof. intros Hr Hin. unfold np.rect in Hr. rewrite Forall_forall in Hr. by apply Hr. Qed.

Lemma getitem_Some a i j x :
  np.getitem a i j = Some x ↔
  0 ≤ i ∧ 0 ≤ j ∧ ∃ row, a !! Z.to_nat i = Some row ∧ row !! Z.to_nat j = Some x.
Proof.
  unfold np.getitem. destruct (0 <=? i) eqn:Hi; destruct (0 <=? j) eqn:Hj; simpl;
    try (split; [done | lia]).
  destruct (a !! Z.to_nat i) as [row|] eqn:Hrow; simpl.
  - split; [intros; split_and!; try lia; eauto | intros (_ & _ & row' & [= <-] & ?); done].
  - split; [done | intros (_ & _ & row' & [=] & ?)].
Qed.

Lemma getitem_inb a i j x :
  np.rect a → np.getitem a i j = Some x →
  0 ≤ i < np.shape0 a ∧ 0 ≤ j < np.shape1 a.
Proof.
  intros Hr (Hi & Hj & row & Hrow & Hx)%getitem_Some.
  pose proof (lookup_lt_Some _ _ _ Hrow). pose proof (lookup_lt_Some _ _ _ Hx).
  assert (row ∈ a) as Hin by (apply list_elem_of_lookup; eauto).
  pose proof (rect_row _ _ Hr Hin). unfold np.shape0. lia.
Qed.

Lemma getitem_is_Some a i j :
  np.rect a → 0 ≤ i < np.shape0 a → 0 ≤ j < np.shape1 a →
  is_Some (np.getitem a i j).
Proof.
  intros Hr Hi Hj. unfold np.shape0 in Hi.
  destruct (lookup_lt_is_Some_2 a (Z.to_nat i)) as [row Hrow]; [lia|].
  assert (row ∈ a) as Hin by (apply list_elem_of_lookup; eauto).
  pose proof (rect_row _ _ Hr Hin).
  destruct (lookup_lt_is_Some_2 row (Z.to_nat j)) as [x Hx]; [lia|].
  exists x. apply getitem_Some. split_and!; [lia | lia | eauto].
Qed.

Lemma shape0_setitem a i j v : np.shape0 (np.setitem a i j v) = np.shape0 a.
Proof. unfold np.shape0, np.setitem. by rewrite length_alter. Qed.

Lemma shape1_setitem a i j v : np.shape1 (np.setitem a i j v) = np.shape1 a.
Proof.
  unfold np.shape1, np.setitem. destruct a as [|row a]; [done|].
  destruct (Z.to_nat i); simpl; [by rewrite length_insert | done].
Qed.

Lemma rect_setitem a i j v : np.rect a → np.rect (np.setitem a i j v).
Proof.
  intros Hr. unfold np.rect. rewrite shape1_setitem. unfold np.setitem.
  apply Forall_alter; [done|]. intros row _ Hrow. by rewrite length_insert.
Qed.

Lemma getitem_setitem a i j v i' j' :
  0 ≤ i → 0 ≤ j →
  np.getitem (np.setitem a i j v) i' j' =
  if decide (i = i' ∧ j = j') then (λ _, v) <$> np.getitem a i j
  else np.getitem a i' j'.
Proof.
  intros Hi Hj. unfold np.getitem, np.setitem.
  destruct (0 <=? i') eqn:Hi'; destruct (0 <=? j') eqn:Hj'; simpl;
    try (case_decide; [|done]; exfalso; lia).
  assert ((0 <=? i) && (0 <=? j) = true) as -> by lia.
  destruct (decide (Z.to_nat i = Z.to_nat i')) as [Heq|Hne].
  - rewrite <- Heq. rewrite list_lookup_alter_eq.
    destruct (a !! Z.to_nat i) as [row|] eqn:Hrow; simpl.
    + destruct (decide (Z.to_nat j = Z.to_nat j')) as [Heqj|Hnej].
      * rewrite <- Heqj. rewrite decide_True by lia.
        destruct (row !! Z.to_nat j) as [x|] eqn:Hx; simpl.
        -- rewrite list_lookup_insert_eq; [done | by eapply lookup_lt_Some].
        -- apply lookup_ge_None. rewrite length_insert. by apply lookup_ge_None.
      * rewrite decide_False by lia. by rewrite list_lookup_insert_ne.
    + by case_decide.
  - rewrite list_lookup_alter_ne by done. rewrite decide_False by lia. done.
Qed.

Lemma at_setitem_eq a c v x :
  np.at_ a c = Some x → np.at_ (np.setitem a c.1 c.2 v) c = Some v.
Proof.
  intros Hx. unfold np.at_ in *. pose proof Hx as (? & ? & _)%getitem_Some.
  rewrite getitem_setitem by done. rewrite decide_True by done. by rewrite Hx.
Qed.

Lemma at_setitem_ne a c c' v :
  0 ≤ c.1 → 0 ≤ c.2 → c ≠ c' → np.at_ (np.setitem a c.1 c.2 v) c' = np.at_ a c'.
Proof.
  intros ? ? Hne. unfold np.at_. rewrite getitem_setitem by done.
  rewrite decide_False; [done|]. intros [? ?]. apply Hne.
  destruct c, c'; simpl in *; congruence.
Qed.

Lemma at_map {B} (f : A → B) a c :
  np.at_ (map (map f) a) c = f <$> np.at_ a c.
Proof.
  unfold np.at_, np.getitem. destruct ((0 <=? c.1) && (0 <=? c.2)); [|done].
  change (map (map f) a) with (fmap (M:=list) (fmap (M:=list) f) a).
  rewrite list_lookup_fmap. destruct (a !! Z.to_nat c.1) as [row|]; simpl; [|done].
  by rewrite list_lookup_fmap.
Qed.

Lemma shape0_map {B} (f : A → B) a : np.shape0 (map (map f) a) = np.shape0 a.
Proof. unfold np.shape0. by rewrite length_map. Qed.

Lemma shape1_map {B} (f : A → B) a : np.shape1 (map (map f) a) = np.shape1 a.
Proof. destruct a; simpl; [done|]. by rewrite length_map. Qed.

Lemma rect_map {B} (f : A → B) a : np.rect a → np.rect (map (map f) a).
Proof.
  intros Hr. unfold np.rect. rewrite shape1_map. apply Forall_forall.
  intros row' Hin. apply list_elem_of_In, in_map_iff in Hin as (row & <- & Hin).
  rewrite length_map. apply rect_row; [done|]. by apply list_elem_of_In.
Qed.

Lemma size_map {B} (f : A → B) a : np.size (map (map f) a) = np.size a.
Proof.
  unfold np.size. induction a as [|row a IH]; simpl; [done|].
  rewrite !length_app, length_map. unfold np.size in IH. lia.
Qed.

(** A masked assignment whose mask is computed from the array itself is a
    pointwise map. *)
Lemma mask_assign_self (p : A → bool) a v :
  np.mask_assign a (map (map p) a) v = map (map (λ x, if p x then v else x)) a.
Proof.
  unfold np.mask_assign. induction a as [|row a IH]; simpl; [done|].
  f_equal; [|done]. clear. induction row as [|x row IH]; simpl; [done|].
  by f_equal.
Qed.

End ndarray.

(** ** argwhere and count_nonzero *)

Lemma elem_of_argwhere_row i j0 row (c : Cell) :
  c ∈ np.argwhere_row i j0 row ↔
  c.1 = i ∧ j0 ≤ c.2 ∧ row !! Z.to_nat (c.2 - j0) = Some true.
Proof.
  revert j0. induction row as [|b row IH]; intros j0; simpl.
  - rewrite elem_of_nil. split; [done | by intros (_ & _ & ?)].
  - rewrite elem_of_app, IH. destruct c as [ci cj]; simpl. split.
    + intros [Hc | (-> & Hj & Hrow)].
      * destruct b; [|by apply elem_of_nil in Hc].
        apply list_elem_of_singleton in Hc as [= -> ->].
        rewrite Z.sub_diag. split_and!; [done | lia | done].
      * split_and!; [done | lia |].
        replace (Z.to_nat (cj - j0)) with (S (Z.to_nat (cj - (j0 + 1)))) by lia.
        done.
    + intros (-> & Hj & Hrow). destruct (decide (cj = j0)) as [->|Hne].
      * rewrite Z.sub_diag in Hrow. simpl in Hrow. injection Hrow as ->.
        left. by apply list_elem_of_singleton.
      * right. split_and!; [done | lia |].
        replace (Z.to_nat (cj - j0)) with (S (Z.to_nat (cj - (j0 + 1)))) in Hrow by lia.
        done.
Qed.

Lemma elem_of_argwhere_from i0 m (c : Cell) :
  c ∈ np.argwhere_from i0 m ↔
  i0 ≤ c.1 ∧ 0 ≤ c.2 ∧
  ∃ row, m !! Z.to_nat (c.1 - i0) = Some row ∧ row !! Z.to_nat c.2 = Some true.
Proof.
  revert i0. induction m as [|r m IH]; intros i0; simpl.
  - rewrite elem_of_nil. split; [done | by intros (_ & _ & ? & ? & ?)].
  - rewrite elem_of_app, IH, elem_of_argwhere_row. rewrite Z.sub_0_r. split.
    + intros [(-> & Hj & Hrow) | (Hi & Hj & row & Hm & Hrow)].
      * split_and!; [lia | done |]. exists r. by rewrite Z.sub_diag.
      * split_and!; [lia | done |]. exists row.
        replace (Z.to_nat (c.1 - i0)) with (S (Z.to_nat (c.1 - (i0 + 1)))) by lia.
        done.
    + intros (Hi & Hj & row & Hm & Hrow). destruct (decide (c.1 = i0)) as [Heq|Hne].
      * left. rewrite Heq, Z.sub_diag in Hm. simpl in Hm. injection Hm as ->. done.
      * right. split_and!; [lia | done |]. exists row.
        replace (Z.to_nat (c.1 - i0)) with (S (Z.to_nat (c.1 - (i0 + 1)))) in Hm by lia.
        done.
Qed.

Lemma elem_of_argwhere m (c : Cell) : c ∈ np.argwhere m ↔ np.at_ m c = Some true.
Proof.
  unfold np.argwhere, np.at_. rewrite elem_of_argwhere_from, getitem_Some.
  rewrite Z.sub_0_r. tauto.
Qed.

Lemma argwhere_row_sorted i j0 row :
  StronglySorted cell_lt (np.argwhere_row i j0 row).
Proof.
  revert j0. induction row as [|b row IH]; intros j0; simpl; [constructor|].
  apply StronglySorted_app_2; [| destruct b; repeat constructor | apply IH].
  intros x1 x2 Hx1 (? & ? & _)%elem_of_argwhere_row.
  destruct b; [|by apply elem_of_nil in Hx1].
  apply list_elem_of_singleton in Hx1 as ->. right. simpl. lia.
Qed.

Lemma argwhere_from_sorted i0 m : StronglySorted cell_lt (np.argwhere_from i0 m).
Proof.
  revert i0. induction m as [|r m IH]; intros i0; simpl; [constructor|].
  apply StronglySorted_app_2; [| apply argwhere_row_sorted | apply IH].
  intros x1 x2 (? & _)%elem_of_argwhere_row (? & _)%elem_of_argwhere_from.
  left. lia.
Qed.

Lemma argwhere_sorted m : StronglySorted cell_lt (np.argwhere m).
Proof. apply argwhere_from_sorted. Qed.

Lemma cell_lt_irrefl (c : Cell) : ¬ cell_lt c c.
Proof. unfold cell_lt. lia. Qed.

Lemma cell_lt_trans (a b c : Cell) : cell_lt a b → cell_lt b c → cell_lt a c.
Proof. unfold cell_lt. lia. Qed.

Lemma cell_lt_total (a b : Cell) : cell_lt a b ∨ a = b ∨ cell_lt b a.
Proof.
  destruct a as [a1 a2], b as [b1 b2]. unfold cell_lt. simpl.
  destruct (decide (a1 = b1)) as [->|]; destruct (decide (a2 = b2)) as [->|];
    try lia; auto.
Qed.

Lemma cell_ltb_lt (a b : Cell) : cell_ltb a b = true ↔ cell_lt a b.
Proof. unfold cell_ltb, cell_lt. lia. Qed.

Lemma StronglySorted_NoDup (l : list Cell) : StronglySorted cell_lt l → NoDup l.
Proof.
  induction 1 as [|x l _ IH Hall]; constructor; [|done].
  intros Hin. rewrite Forall_forall in Hall. by apply (cell_lt_irrefl x), Hall.
Qed.

Lemma argwhere_NoDup m : NoDup (np.argwhere m).
Proof. apply StronglySorted_NoDup, argwhere_sorted. Qed.

(** The head of [argwhere] is the first true cell of the row-major scan. *)
Lemma argwhere_head m (s : Cell) rest :
  np.argwhere m = s :: rest →
  np.at_ m s = Some true ∧
  ∀ c, np.at_ m c = Some true → c = s ∨ cell_lt s c.
Proof.
  intros Heq. pose proof (argwhere_sorted m) as Hs. rewrite Heq in Hs.
  split.
  - apply elem_of_argwhere. rewrite Heq. by left.
  - intros c Hc%elem_of_argwhere. rewrite Heq in Hc.
    apply elem_of_cons in Hc as [->|Hc]; [by left | right].
    apply StronglySorted_inv in Hs as [_ Hall]. rewrite Forall_forall in Hall. auto.
Qed.

Lemma length_argwhere_row i j0 row :
  length (np.argwhere_row i j0 row) = length (filter (λ b : bool, b = true) row).
Proof.
  revert j0. induction row as [|b row IH]; intros j0; [done|].
  cbn [np.argwhere_row]. rewrite length_app, IH. destruct b.
  - by rewrite filter_cons_True.
  - by rewrite filter_cons_False.
Qed.

Lemma length_argwhere_from i0 m :
  length (np.argwhere_from i0 m) = length (filter (λ b : bool, b = true) (concat m)).
Proof.
  revert i0. induction m as [|r m IH]; intros i0; simpl; [done|].
  by rewrite length_app, filter_app, length_app, IH, length_argwhere_row.
Qed.

Lemma count_nonzero_argwhere m :
  np.count_nonzero m = Z.of_nat (length (np.argwhere m)).
Proof. unfold np.count_nonzero, np.argwhere. by rewrite length_argwhere_from. Qed.

Lemma length_argwhere_le m : (length (np.argwhere m) ≤ np.size m)%nat.
Proof. unfold np.argwhere, np.size. rewrite length_argwhere_from. apply length_filter. Qed.

Lemma at_eq (a : np.ndarray Z) v c :
  np.at_ (np.eq a v) c = Some true ↔ np.at_ a c = Some v.
Proof.
  unfold np.eq. rewrite at_map. destruct (np.at_ a c) as [x|]; simpl; [|done].
  split; [intros [= ?%Z.eqb_eq]; by subst | intros [= ->]; by rewrite Z.eqb_refl].
Qed.

Lemma elem_of_argwhere_eq (a : np.ndarray Z) v c :
  c ∈ np.argwhere (np.eq a v) ↔ np.at_ a c = Some v.
Proof. by rewrite elem_of_argwhere, at_eq. Qed.

Lemma zeros_le_size a : (zeros a ≤ np.size a)%nat.
Proof.
  unfold zeros. etrans; [apply length_argwhere_le|]. unfold np.eq. by rewrite size_map.
Qed.

Lemma zeros_setitem a (c : Cell) v :
  np.at_ a c = Some 0 → v ≠ 0 →
  (S (zeros (np.setitem a c.1 c.2 v)) ≤ zeros a)%nat.
Proof.
  intros Hc Hv. unfold zeros.
  pose proof Hc as (Hc1 & Hc2 & _)%getitem_Some.
  change (S (length ?l)) with (length (c :: l)).
  apply submseteq_length, NoDup_submseteq.
  - constructor; [|apply argwhere_NoDup].
    rewrite elem_of_argwhere_eq. erewrite at_setitem_eq by done. congruence.
  - intros x [->|Hx]%elem_of_cons; [by apply elem_of_argwhere_eq|].
    apply elem_of_argwhere_eq in Hx. apply elem_of_argwhere_eq.
    destruct (decide (c = x)) as [->|Hne].
    + erewrite at_setitem_eq in Hx by done. congruence.
    + by rewrite at_setitem_ne in Hx.
Qed.

(** ** The heap *)

Lemma elem_of_heappush heap x (c : Cell) : c ∈ heappush heap x ↔ c = x ∨ c ∈ heap.
Proof.
  induction heap as [|y heap IH]; simpl.
  - rewrite list_elem_of_singleton, elem_of_nil. tauto.
  - destruct (cell_ltb y x); rewrite !elem_of_cons; [rewrite IH|]; tauto.
Qed.

Lemma NoDup_heappush heap x : NoDup heap → x ∉ heap → NoDup (heappush heap x).
Proof.
  induction 1 as [|y heap Hy Hnd IH]; intros Hx; simpl.
  - apply NoDup_singleton.
  - destruct (cell_ltb y x).
    + constructor.
      * rewrite elem_of_heappush. intros [->|?]; [|done]. apply Hx. by left.
      * apply IH. intros ?. apply Hx. by right.
    + constructor; [done | by constructor].
Qed.

(** [heappush] keeps the list ascending, so the head that [heappop] takes
    is the smallest item, as [heapq] promises. *)
Lemma heappush_sorted heap x :
  x ∉ heap → StronglySorted cell_lt heap → StronglySorted cell_lt (heappush heap x).
Proof.
  intros Hx Hs. induction Hs as [|y heap Hs IH Hall]; simpl.
  - repeat constructor.
  - destruct (cell_ltb y x) eqn:Hlt.
    + constructor; [apply IH; intros ?; apply Hx; by right|].
      apply Forall_forall. intros c [->|Hc]%elem_of_heappush.
      * by apply cell_ltb_lt.
      * rewrite Forall_forall in Hall. auto.
    + assert (cell_lt x y) as Hxy.
      { destruct (cell_lt_total x y) as [?|[->|?%cell_ltb_lt]]; [done | | congruence].
        exfalso. apply Hx. by left. }
      constructor; [by constructor|]. constructor; [done|].
      eapply Forall_impl; [exact Hall|]. intros c ?. by eapply cell_lt_trans.
Qed.

(** ** The neighbour loop *)

Lemma visitNeighbor_eq (grid : np.ndarray Z) st (n : Cell) :
  np.rect grid →
  visitNeighbor grid st n =
  if decide (np.at_ grid n = Some 0 ∧ n ∉ st.2)
  then (heappush st.1 n, st.2 ∪ {[ n ]}) else st.
Proof.
  intros Hr. destruct n as [ai aj]. unfold visitNeighbor, np.at_. simpl.
  destruct ((0 <=? ai) && (ai <? np.shape0 grid) && (0 <=? aj) && (aj <? np.shape1 grid))
    eqn:Hb.
  - case_decide as Hd.
    + destruct Hd as [H1 H2].
      by rewrite (bool_decide_eq_true_2 _ H1), (bool_decide_eq_true_2 _ H2).
    + destruct (bool_decide (np.getitem grid ai aj = Some 0)) eqn:E1; [|done].
      destruct (bool_decide ((ai, aj) ∉ st.2)) eqn:E2; [|done].
      apply bool_decide_eq_true in E1, E2. tauto.
  - case_decide as Hd; [|done]. destruct Hd as [H1 _].
    apply getitem_inb in H1; [|done]. lia.
Qed.

Lemma visit_fold (grid : np.ndarray Z) (ns heap : list Cell) (visited : gset Cell) :
  np.rect grid →
  let st := foldl (visitNeighbor grid) (heap, visited) ns in
  (∀ c, c ∈ (st.2) ↔ c ∈ visited ∨ (c ∈ ns ∧ np.at_ grid c = Some 0)) ∧
  (∀ c, c ∈ (st.1) ↔ c ∈ heap ∨ ((c ∉ visited) ∧ c ∈ ns ∧ np.at_ grid c = Some 0)) ∧
  (NoDup heap → (∀ c, c ∈ heap → c ∈ visited) → NoDup (st.1)).
Proof.
  intros Hr. revert heap visited.
  induction ns as [|n ns IH]; intros heap visited; simpl.
  - split_and!; [|  | done]; intros c; rewrite elem_of_nil; tauto.
  - rewrite visitNeighbor_eq by done. simpl.
    case_decide as Hd.
    + destruct Hd as [H0 Hn]. destruct (IH (heappush heap n) (visited ∪ {[ n ]})) as (IH1 & IH2 & IH3).
      split_and!.
      * intros c. rewrite IH1. rewrite elem_of_cons, elem_of_union, elem_of_singleton.
        destruct (decide (c = n)) as [->|]; tauto.
      * intros c. rewrite IH2. rewrite elem_of_cons, elem_of_union, elem_of_singleton,
          elem_of_heappush.
        destruct (decide (c = n)) as [->|]; tauto.
      * intros Hnd Hsub. apply IH3.
        -- apply NoDup_heappush; [done|]. intros ?. by apply Hn, Hsub.
        -- intros c [->|?]%elem_of_heappush; apply elem_of_union; [right | left; auto].
           by apply elem_of_singleton.
    + destruct (IH heap visited) as (IH1 & IH2 & IH3).
      split_and!; [| |done].
      * intros c. rewrite IH1, elem_of_cons.
        destruct (decide (n ∈ visited)); destruct (decide (c = n)) as [->|]; tauto.
      * intros c. rewrite IH2, elem_of_cons.
        destruct (decide (n ∈ visited)); destruct (decide (c = n)) as [->|]; tauto.
Qed.

Lemma adjacent_neighbors (a b : Cell) : adjacent a b ↔ b ∈ neighbors a.1 a.2.
Proof.
  destruct a as [i j], b as [i' j']. unfold adjacent, neighbors. simpl.
  rewrite !elem_of_cons, elem_of_nil. split.
  - intros H.
    assert ((i' = i + 1 ∧ j' = j) ∨ (i' = i - 1 ∧ j' = j) ∨
            (i' = i ∧ j' = j + 1) ∨ (i' = i ∧ j' = j - 1)) as Hc by lia.
    destruct Hc as [[-> ->]|[[-> ->]|[[-> ->]|[-> ->]]]]; auto.
  - intros [[= -> ->]|[[= -> ->]|[[= -> ->]|[[= -> ->]|[]]]]]; lia.
Qed.

Lemma adjacent_sym (a b : Cell) : adjacent a b → adjacent b a.
Proof. unfold adjacent. lia. Qed.

Lemma connected_sym occ a b : connected occ a b → connected occ b a.
Proof.
  unfold connected. induction 1 as [|a b c (Ha & Hb & Hab) _ IH]; [apply rtc_refl|].
  eapply rtc_r; [exact IH|]. split_and!; [done | done | by apply adjacent_sym].
Qed.

Lemma connected_trans occ a b c :
  connected occ a b → connected occ b c → connected occ a c.
Proof. apply rtc_trans. Qed.

(** ** The wavefront loop *)

Lemma size_setitem {A} (a : np.ndarray A) i j v :
  np.size (np.setitem a i j v) = np.size a.
Proof.
  unfold np.size, np.setitem. revert a. generalize (Z.to_nat i) as n.
  induction n as [|n IH]; intros [|row a]; simpl; try done.
  - by rewrite !length_app, length_insert.
  - rewrite !length_app. f_equal. apply IH.
Qed.

Lemma labelInv_zero_free G0 G cur c :
  binaryGrid G0 → labelInv G0 G cur → np.at_ G c = Some 0 → np.at_ G0 c = Some 0.
Proof.
  intros Hb HI Hc. destruct (li_dom _ _ _ HI c) as [v Hv]; [eauto|].
  destruct (Hb _ _ Hv) as [->| ->]; [|done].
  apply (li_occ _ _ _ HI) in Hv. congruence.
Qed.

Lemma labelInv_values G0 G cur c v :
  binaryGrid G0 → labelInv G0 G cur → np.at_ G c = Some v →
  v = -1 ∨ v = 0 ∨ 1 ≤ v < cur.
Proof.
  intros Hb HI Hc. destruct (li_dom _ _ _ HI c) as [w Hw]; [eauto|].
  destruct (Hb _ _ Hw) as [->| ->].
  - apply (li_occ _ _ _ HI) in Hw. left. congruence.
  - apply (li_free _ _ _ HI) in Hw as (v' & Hv' & ?). right.
    assert (v = v') by congruence. subst. lia.
Qed.

Lemma fireInv_step G0 Gout s cur G (c : Cell) heap visited :
  binaryGrid G0 → labelInv G0 Gout cur → 1 ≤ cur →
  fireInv G0 Gout s cur G (c :: heap) visited →
  let G1 := np.setitem G c.1 c.2 cur in
  let st := foldl (visitNeighbor G1) (heap, visited) (neighbors c.1 c.2) in
  fireInv G0 Gout s cur G1 (st.1) (st.2) ∧ (S (zeros G1) ≤ zeros G)%nat.
Proof.
  intros Hb HI Hcur HF G1 st.
  destruct (fi_heap _ _ _ _ _ _ _ HF c) as [Hcv Hc0]; [by left|].
  pose proof Hc0 as (Hc1 & Hc2 & _)%getitem_Some.
  assert (np.rect G1) as Hr1 by (apply rect_setitem, (fi_rect _ _ _ _ _ _ _ HF)).
  assert (np.at_ G1 c = Some cur) as HG1c by (by eapply at_setitem_eq).
  assert (∀ x, x ≠ c → np.at_ G1 x = np.at_ G x) as HG1o.
  { intros x Hx. by apply at_setitem_ne. }
  pose proof (fi_nodup _ _ _ _ _ _ _ HF) as Hnd. apply NoDup_cons in Hnd as [Hcnh Hnd].
  destruct (visit_fold G1 (neighbors c.1 c.2) heap visited Hr1) as (Hv2 & Hh2 & Hnd2).
  fold st in Hv2, Hh2, Hnd2.
  split; [|apply zeros_setitem; [done|lia]].
  assert (∀ x, x ∉ visited → x ∈ neighbors c.1 c.2 → np.at_ G1 x = Some 0 →
               np.at_ G x = Some 0 ∧ np.at_ Gout x = Some 0 ∧ connected G0 s x) as Hnew.
  { intros x Hxv Hxn Hx0. assert (x ≠ c) as Hxc by (intros ->; done).
    rewrite HG1o in Hx0 by done. split; [done|].
    assert (np.at_ Gout x = Some 0) as Hout.
    { destruct (fi_frame _ _ _ _ _ _ _ HF x) as [<-|[? ?]]; done. }
    split; [done|].
    destruct (fi_vis _ _ _ _ _ _ _ HF c Hcv) as (_ & Hcout & Hsc).
    eapply rtc_r; [exact Hsc|]. split_and!.
    - eapply labelInv_zero_free; eauto.
    - eapply labelInv_zero_free; eauto.
    - by apply adjacent_neighbors. }
  split.
  - done.
  - rewrite <- (fi_size _ _ _ _ _ _ _ HF). apply size_setitem.
  - intros x. destruct (decide (x = c)) as [->|Hxc].
    + right. split; [|done]. by apply (fi_vis _ _ _ _ _ _ _ HF).
    + rewrite HG1o by done. apply (fi_frame _ _ _ _ _ _ _ HF).
  - intros x [Hx|(Hxv & Hxn & Hx0)]%Hh2.
    + destruct (fi_heap _ _ _ _ _ _ _ HF x) as [? ?]; [by right|].
      split; [apply Hv2; by left|]. rewrite HG1o; [done|]. by intros ->.
    + split; [apply Hv2; by right|done].
  - apply Hnd2; [done|]. intros x Hx. apply (fi_heap _ _ _ _ _ _ _ HF). by right.
  - intros x [Hx|[Hxn Hx0]]%Hv2.
    + destruct (fi_vis _ _ _ _ _ _ _ HF x Hx) as ([Hxh|Hxl] & ? & ?).
      * split; [|done]. apply elem_of_cons in Hxh as [->|Hxh]; [by right|].
        left. apply Hh2. by left.
      * split; [|done]. right. destruct (decide (x = c)) as [->|]; [done|].
        by rewrite HG1o.
    + destruct (decide (x ∈ visited)) as [Hx|Hx].
      * destruct (fi_vis _ _ _ _ _ _ _ HF x Hx) as ([Hxh|Hxl] & ? & ?).
        -- split; [|done]. apply elem_of_cons in Hxh as [->|Hxh]; [by right|].
           left. apply Hh2. by left.
        -- split; [|done]. right. destruct (decide (x = c)) as [->|]; [done|].
           by rewrite HG1o.
      * destruct (Hnew x) as (? & ? & ?); [done..|].
        split; [|done]. left. apply Hh2. by right.
  - intros x Hx. apply Hv2. left. destruct (decide (x = c)) as [->|]; [done|].
    apply (fi_lab _ _ _ _ _ _ _ HF). by rewrite <- HG1o.
  - intros a b Ha Hab Hb0. apply Hv2.
    destruct (decide (a = c)) as [->|Hac].
    + destruct (decide (b ∈ visited)) as [|Hbv]; [by left|]. right.
      split; [by apply adjacent_neighbors|].
      assert (b ≠ c) as Hbc by (intros ->; done).
      rewrite HG1o by done.
      destruct (fi_frame _ _ _ _ _ _ _ HF b) as [Hfr|[_ Hfr]].
      * destruct (li_free _ _ _ HI b Hb0) as (w & Hw & [->|Hw1]); [congruence|].
        exfalso.
        destruct (fi_vis _ _ _ _ _ _ _ HF c Hcv) as (_ & Hcout & _).
        assert (np.at_ Gout c = Some w) as Hcw.
        { apply (li_closed _ _ _ HI b c w); [done | lia | by apply adjacent_sym |].
          eapply labelInv_zero_free; eauto. }
        rewrite Hcout in Hcw. injection Hcw as <-. lia.
      * exfalso. apply Hbv. by apply (fi_lab _ _ _ _ _ _ _ HF).
    + left. apply (fi_closed _ _ _ _ _ _ _ HF a b); [|done..].
      by rewrite <- HG1o.
  - apply Hv2. left. apply (fi_seed _ _ _ _ _ _ _ HF).
Qed.

Lemma bind_Ret {A B} (a : A) (k : A → outcome B) : (Ret a ≫= k) = k a.
Proof. done. Qed.

Lemma grassfire_spec G0 Gout s cur fuel G heap visited :
  binaryGrid G0 → labelInv G0 Gout cur → 1 ≤ cur →
  fireInv G0 Gout s cur G heap visited → (zeros G < fuel)%nat →
  ∃ G' visited', grassfire fuel G heap visited cur = Ret G' ∧
                 fireInv G0 Gout s cur G' [] visited'.
Proof.
  intros Hb HI Hcur. revert G heap visited.
  induction fuel as [|fuel IH]; intros G heap visited HF Hz; [lia|].
  destruct heap as [|[i j] heap]; simpl.
  - eauto.
  - destruct (fireInv_step _ _ _ _ _ (i, j) _ _ Hb HI Hcur HF) as [HF1 Hz1].
    simpl in HF1, Hz1. apply (IH _ _ _ HF1). lia.
Qed.

Lemma fireInv_init G0 G cur (s : Cell) :
  binaryGrid G0 → labelInv G0 G cur → 1 ≤ cur → np.at_ G s = Some 0 →
  fireInv G0 G s cur G (heappush [] s) {[ s ]}.
Proof.
  intros Hb HI Hcur Hs. simpl. split.
  - apply (li_rect _ _ _ HI).
  - done.
  - by left.
  - intros c ->%list_elem_of_singleton. split; [set_solver|done].
  - apply NoDup_singleton.
  - intros c ->%elem_of_singleton. split_and!; [left; by left | done | apply rtc_refl].
  - intros c Hc. destruct (labelInv_values _ _ _ _ _ Hb HI Hc) as [?|[?|?]]; lia.
  - intros a b Ha. destruct (labelInv_values _ _ _ _ _ Hb HI Ha) as [?|[?|?]]; lia.
  - set_solver.
Qed.

(** When the heap is empty the wavefront has labelled one whole region. *)
Lemma fireInv_done G0 Gout (s : Cell) cur G visited :
  binaryGrid G0 → labelInv G0 Gout cur → 1 ≤ cur →
  np.at_ Gout s = Some 0 →
  (∀ c, np.at_ Gout c = Some 0 → c = s ∨ cell_lt s c) →
  fireInv G0 Gout s cur G [] visited →
  labelInv G0 G (cur + 1) ∧ (zeros G < zeros Gout)%nat.
Proof.
  intros Hb HI Hcur Hs Hfirst HF.
  assert (∀ c, c ∈ visited ↔ np.at_ G c = Some cur) as Hvis.
  { intros c. split; [|apply (fi_lab _ _ _ _ _ _ _ HF)]. intros Hc.
    destruct (fi_vis _ _ _ _ _ _ _ HF c Hc) as ([[]%elem_of_nil|?] & _); done. }
  assert (∀ c v, np.at_ Gout c = Some v → v ≠ 0 → np.at_ G c = Some v) as Hkeep.
  { intros c v Hc Hv. destruct (fi_frame _ _ _ _ _ _ _ HF c) as [->|[? _]]; congruence. }
  assert (∀ c v, np.at_ G c = Some v → v ≠ cur → np.at_ Gout c = Some v) as Hback.
  { intros c v Hc Hv. destruct (fi_frame _ _ _ _ _ _ _ HF c) as [<-|[_ ?]]; congruence. }
  split; [split|].
  - apply (fi_rect _ _ _ _ _ _ _ HF).
  - rewrite (fi_size _ _ _ _ _ _ _ HF). apply (li_size _ _ _ HI).
  - intros c Hc. apply (Hkeep c); [by apply (li_occ _ _ _ HI) | lia].
  - intros c Hc. destruct (li_free _ _ _ HI c Hc) as (v & Hv & Hvv).
    destruct (fi_frame _ _ _ _ _ _ _ HF c) as [Hfr|[_ Hfr]].
    + exists v. split; [congruence|lia].
    + exists cur. split; [done|lia].
  - intros c [v Hv]. apply (li_dom _ _ _ HI).
    destruct (fi_frame _ _ _ _ _ _ _ HF c) as [<-|[-> _]]; eauto.
  - intros a b v Ha Hv Hab Hb0. destruct (decide (v = cur)) as [->|Hne].
    + apply Hvis. by apply (fi_closed _ _ _ _ _ _ _ HF a b).
    + apply Hkeep; [|lia]. apply (li_closed _ _ _ HI a b v); [|done..].
      by apply Hback.
  - intros a b v Ha Hb' Hv. destruct (decide (v = cur)) as [->|Hne].
    + apply Hvis in Ha. apply (fi_vis _ _ _ _ _ _ _ HF) in Ha as (_ & _ & Ha).
      apply Hvis in Hb'. apply (fi_vis _ _ _ _ _ _ _ HF) in Hb' as (_ & _ & Hb').
      eapply connected_trans; [apply connected_sym; exact Ha | exact Hb'].
    + apply (li_sound _ _ _ HI a b v); [by apply Hback | by apply Hback | done].
  - intros k Hk. destruct (decide (k = cur)) as [->|Hne].
    + exists s. split; [apply Hvis, (fi_seed _ _ _ _ _ _ _ HF)|]. intros c v Hlt Hc.
      destruct (decide (v = cur)) as [->|Hvc].
      * apply Hvis in Hc. apply (fi_vis _ _ _ _ _ _ _ HF) in Hc as (_ & Hc & _).
        destruct (Hfirst c Hc) as [->|Hsc]; exfalso.
        -- by apply (cell_lt_irrefl s).
        -- by apply (cell_lt_irrefl s), (cell_lt_trans s c s).
      * apply Hback in Hc; [|done].
        destruct (labelInv_values _ _ _ _ _ Hb HI Hc) as [?|[->|?]]; [by left| |by right].
        destruct (Hfirst c Hc) as [->|Hsc]; exfalso.
        -- by apply (cell_lt_irrefl s).
        -- by apply (cell_lt_irrefl s), (cell_lt_trans s c s).
    + destruct (li_seed _ _ _ HI k) as (sk & Hsk & Hbefore); [lia|].
      exists sk. split; [apply Hkeep; [done|lia]|].
      intros c v Hlt Hc. destruct (decide (v = cur)) as [->|Hvc].
      * apply Hvis in Hc. apply (fi_vis _ _ _ _ _ _ _ HF) in Hc as (_ & Hc & _).
        apply (Hbefore c 0 Hlt) in Hc. lia.
      * apply (Hbefore c v Hlt). by apply Hback.
  - unfold zeros.
    enough (length (s :: np.argwhere (np.eq G 0)) ≤ length (np.argwhere (np.eq Gout 0)))%nat
      by (simpl in *; lia).
    apply submseteq_length, NoDup_submseteq.
    + constructor; [|apply argwhere_NoDup].
      rewrite elem_of_argwhere_eq. intros Hs0.
      assert (np.at_ G s = Some cur) by (apply Hvis, (fi_seed _ _ _ _ _ _ _ HF)). assert (cur = 0) by congruence. lia.
    + intros x [->|Hx]%elem_of_cons; apply elem_of_argwhere_eq; [done|].
      apply elem_of_argwhere_eq in Hx. apply Hback; [done|lia].
Qed.

Lemma labelLoop_spec G0 fuel G cur :
  binaryGrid G0 → labelInv G0 G cur → 1 ≤ cur → (zeros G < fuel)%nat →
  ∃ L R, labelLoop fuel G cur = Ret (L, R) ∧ labelInv G0 L R ∧
         zeros L = 0%nat ∧ cur ≤ R.
Proof.
  intros Hb. revert G cur.
  induction fuel as [|fuel IH]; intros G cur HI Hcur Hz; [lia|].
  cbn [labelLoop]. rewrite count_nonzero_argwhere. fold (zeros G).
  destruct (0 <? Z.of_nat (zeros G)) eqn:Hpos.
  - destruct (np.argwhere (np.eq G 0)) as [|s rest] eqn:Harg.
    { unfold zeros in Hpos. rewrite Harg in Hpos. done. }
    apply argwhere_head in Harg as [Hs Hfirst].
    apply at_eq in Hs.
    assert (∀ c, np.at_ G c = Some 0 → c = s ∨ cell_lt s c) as Hfirst'.
    { intros c Hc. by apply Hfirst, at_eq. }
    destruct (grassfire_spec G0 G s cur (S (np.size G)) G (heappush [] s) {[ s ]})
      as (G' & visited' & -> & HF); [done.. | by apply fireInv_init | |].
    { pose proof (zeros_le_size G). lia. }
    destruct (fireInv_done _ _ _ _ _ _ Hb HI Hcur Hs Hfirst' HF) as [HI' Hz'].
    rewrite bind_Ret.
    destruct (IH G' (cur + 1)) as (L & R & -> & ? & ? & ?); [done | lia | lia |].
    exists L, R. split_and!; [done..|lia].
  - exists G, cur. split_and!; [done | done | lia | lia].
Qed.

(** ** Cells and entries *)

Lemma elem_at {A} (a : np.ndarray A) row x :
  row ∈ a → x ∈ row → ∃ c, np.at_ a c = Some x.
Proof.
  intros [i Hi]%list_elem_of_lookup [j Hj]%list_elem_of_lookup.
  exists (Z.of_nat i, Z.of_nat j). apply getitem_Some. simpl.
  split_and!; [lia | lia |]. exists row. by rewrite !Nat2Z.id.
Qed.

Lemma at_elem {A} (a : np.ndarray A) c x :
  np.at_ a c = Some x → ∃ row, row ∈ a ∧ x ∈ row.
Proof.
  intros (_ & _ & row & Hrow & Hx)%getitem_Some. exists row.
  split; apply list_elem_of_lookup; eauto.
Qed.

Lemma Forall_cells {A} (P : A → Prop) (a : np.ndarray A) :
  Forall (Forall P) a ↔ ∀ c x, np.at_ a c = Some x → P x.
Proof.
  rewrite Forall_forall. split.
  - intros H c x (row & Hrow & Hx)%at_elem.
    specialize (H row Hrow). rewrite Forall_forall in H. auto.
  - intros H row Hrow. apply Forall_forall. intros x Hx.
    destruct (elem_at a row x Hrow Hx) as [c Hc]. eauto.
Qed.

Lemma all_ne_cells (a : np.ndarray Z) v :
  np.all (np.ne a v) = true ↔ ∀ c, np.at_ a c ≠ Some v.
Proof.
  unfold np.all, np.ne. rewrite forallb_forall. split.
  - intros H c (row & Hrow & Hx)%at_elem.
    specialize (H (map (λ x, negb (x =? v)) row)).
    rewrite forallb_forall in H.
    assert (id (negb (v =? v)) = true) as Hid.
    { apply H.
      - apply in_map_iff. exists row. split; [done|]. by apply list_elem_of_In.
      - apply in_map_iff. exists v. split; [done|]. by apply list_elem_of_In. }
    rewrite Z.eqb_refl in Hid. done.
  - intros H brow (row & <- & Hrow%list_elem_of_In)%in_map_iff.
    apply forallb_forall. intros b (x & <- & Hx%list_elem_of_In)%in_map_iff.
    destruct (elem_at a row x Hrow Hx) as [c Hc].
    unfold id. apply negb_true_iff, Z.eqb_neq. intros ->. by apply (H c).
Qed.

Lemma zeros_0_cells (a : np.ndarray Z) : zeros a = 0%nat ↔ ∀ c, np.at_ a c ≠ Some 0.
Proof.
  unfold zeros. split.
  - intros Hz c Hc%elem_of_argwhere_eq.
    destruct (np.argwhere (np.eq a 0)); [by apply elem_of_nil in Hc | done].
  - intros H. destruct (np.argwhere (np.eq a 0)) as [|s rest] eqn:Harg; [done|].
    exfalso. apply (H s), elem_of_argwhere_eq. rewrite Harg. by left.
Qed.

(** ** The marked grid *)

Lemma markOccupied_map occ :
  markOccupied occ = map (map (λ x, if negb (x =? 0) then -1 else x)) occ.
Proof. unfold markOccupied, np.ne. apply mask_assign_self. Qed.

Lemma at_markOccupied occ c :
  np.at_ (markOccupied occ) c = (λ x, if negb (x =? 0) then -1 else x) <$> np.at_ occ c.
Proof. rewrite markOccupied_map. apply at_map. Qed.

Lemma markOccupied_free occ c : np.at_ (markOccupied occ) c = Some 0 ↔ isFree occ c.
Proof.
  unfold isFree. rewrite at_markOccupied. destruct (np.at_ occ c) as [x|]; simpl; [|done].
  destruct (Z.eqb_spec x 0) as [->|]; simpl; [done|]. split; intros [=]; lia.
Qed.

Lemma markOccupied_occupied occ c :
  np.at_ (markOccupied occ) c = Some (-1) ↔ isOccupied occ c.
Proof.
  unfold isOccupied. rewrite at_markOccupied.
  destruct (np.at_ occ c) as [x|]; simpl; [|split; [done | by intros (? & ? & ?)]].
  destruct (Z.eqb_spec x 0) as [->|]; simpl.
  - split; [done | intros (v & [= <-] & ?); done].
  - split; [eauto | done].
Qed.

Lemma markOccupied_binary occ : binaryGrid (markOccupied occ).
Proof.
  intros c v. rewrite at_markOccupied. destruct (np.at_ occ c) as [x|]; simpl; [|done].
  destruct (Z.eqb_spec x 0) as [->|]; simpl; intros [= <-]; auto.
Qed.

Lemma markOccupied_dom occ c :
  is_Some (np.at_ (markOccupied occ) c) ↔ is_Some (np.at_ occ c).
Proof. rewrite at_markOccupied. apply fmap_is_Some. Qed.

Lemma connected_markOccupied occ a b :
  connected (markOccupied occ) a b ↔ connected occ a b.
Proof.
  unfold connected. split; induction 1 as [|x y z (Hx & Hy & Hxy) _ IH];
    try apply rtc_refl; (eapply rtc_l; [|exact IH]); split_and!; try done.
  all: by apply markOccupied_free.
Qed.

Lemma labelInv_init G0 : np.rect G0 → binaryGrid G0 → labelInv G0 G0 1.
Proof.
  intros Hr Hb. split; try done.
  - intros c Hc. exists 0. auto.
  - intros a b v Ha Hv. destruct (Hb _ _ Ha); lia.
  - intros a b v Ha _ Hv. destruct (Hb _ _ Ha); lia.
  - intros k Hk. lia.
Qed.

(** ** extractAllRegions returns, and what it returns *)

Lemma extractAllRegions_spec occ :
  np.rect occ →
  ∃ L R, extractAllRegions occ = Ret L ∧ 0 ≤ R ∧
         labelInv (markOccupied occ) L (R + 1) ∧ ∀ c, np.at_ L c ≠ Some 0.
Proof.
  intros Hr. unfold extractAllRegions.
  destruct (labelLoop_spec (markOccupied occ) (S (np.size (markOccupied occ)))
              (markOccupied occ) 1) as (L & R & -> & HI & Hz & HR).
  - apply markOccupied_binary.
  - apply labelInv_init; [|apply markOccupied_binary].
    rewrite markOccupied_map. by apply rect_map.
  - done.
  - pose proof (zeros_le_size (markOccupied occ)). lia.
  - rewrite bind_Ret. pose proof (proj1 (zeros_0_cells L) Hz) as Hnz.
    rewrite (proj2 (all_ne_cells L 0) Hnz).
    exists L, (R - 1). replace (R - 1 + 1) with R by lia.
    split_and!; [done | lia | done | done].
Qed.

Lemma labelInv_dom G0 G cur c :
  binaryGrid G0 → labelInv G0 G cur → is_Some (np.at_ G c) ↔ is_Some (np.at_ G0 c).
Proof.
  intros Hb HI. split; [apply (li_dom _ _ _ HI)|]. intros [v Hv].
  destruct (Hb _ _ Hv) as [->| ->].
  - apply (li_occ _ _ _ HI) in Hv. eauto.
  - apply (li_free _ _ _ HI) in Hv as (w & ? & _). eauto.
Qed.

(** Along a path of free cells the label does not change. *)
Lemma labelInv_connected G0 G cur a b v :
  labelInv G0 G cur → connected G0 a b → np.at_ G a = Some v → 1 ≤ v →
  np.at_ G b = Some v.
Proof.
  intros HI Hab Ha Hv. revert Ha.
  induction Hab as [|x y z (Hx & Hy & Hxy) _ IH]; [done|]. intros Hxv.
  apply IH. by apply (li_closed _ _ _ HI x y v).
Qed.

Lemma labelInv_firstCell G0 G cur k :
  labelInv G0 G cur → 1 ≤ k < cur →
  ∃ s, firstCell G k = Some s ∧ np.at_ G s = Some k ∧
       ∀ c v, cell_lt c s → np.at_ G c = Some v → v = -1 ∨ 1 ≤ v < k.
Proof.
  intros HI Hk. destruct (li_seed _ _ _ HI k Hk) as (s & Hs & Hbefore).
  exists s. split; [|done]. unfold firstCell.
  destruct (np.argwhere (np.eq G k)) as [|h rest] eqn:Harg.
  - apply elem_of_argwhere_eq in Hs. rewrite Harg in Hs. by apply elem_of_nil in Hs.
  - apply argwhere_head in Harg as [Hh Hfirst]. apply at_eq in Hh.
    destruct (Hfirst s) as [->|Hlt]; [by apply at_eq | done |].
    destruct (Hbefore h k Hlt Hh); lia.
Qed.

Lemma exampleGrid_rect : np.rect exampleGrid.
Proof. unfold np.rect, exampleGrid. repeat constructor. Defined.

(** C4. For every (rectangular) occupancy grid the labelling returns a grid
    in which every OCCUPIED cell holds OCCUPIED_MARK, every FREE cell holds
    a positive label, and two FREE cells hold the same label exactly when a
    path of 4-adjacent FREE cells joins them. *)
Theorem extractAllRegions_connectivity occ :
  np.rect occ →
  ∃ L, extractAllRegions occ = Ret L ∧
    (∀ c, isOccupied occ c → np.at_ L c = Some OCCUPIED_MARK) ∧
    (∀ c, isFree occ c → ∃ v, np.at_ L c = Some v ∧ 0 < v) ∧
    (∀ a b, isFree occ a → isFree occ b →
            (np.at_ L a = np.at_ L b ↔ connected occ a b)).
Proof.
  intros Hr. destruct (extractAllRegions_spec occ Hr) as (L & R & HL & HR & HI & Hnz).
  assert (∀ c, isFree occ c → ∃ v, np.at_ L c = Some v ∧ 0 < v) as Hfree.
  { intros c Hc%markOccupied_free.
    destruct (li_free _ _ _ HI c Hc) as (v & Hv & [->|?]); [by apply Hnz in Hv|].
    exists v. split; [done|lia]. }
  exists L. split_and!; [done | | done |].
  - intros c Hc%markOccupied_occupied. by apply (li_occ _ _ _ HI).
  - intros a b Ha Hb. destruct (Hfree a Ha) as (va & Hva & ?).
    destruct (Hfree b Hb) as (vb & Hvb & ?). split.
    + intros Heq. apply connected_markOccupied.
      apply (li_sound _ _ _ HI a b va); [done | congruence | lia].
    + intros Hab%connected_markOccupied. rewrite Hva. symmetry.
      apply (labelInv_connected _ _ _ a b va HI); [done | done | lia].
Qed.

Lemma extractAllRegions_connectivity_witness :
  np.rect exampleGrid ∧
  ∃ L, extractAllRegions exampleGrid = Ret L ∧
    (∀ c, isOccupied exampleGrid c → np.at_ L c = Some OCCUPIED_MARK) ∧
    (∀ c, isFree exampleGrid c → ∃ v, np.at_ L c = Some v ∧ 0 < v) ∧
    (∀ a b, isFree exampleGrid a → isFree exampleGrid b →
            (np.at_ L a = np.at_ L b ↔ connected exampleGrid a b)).
Proof.
  split; [exact exampleGrid_rect|].
  exact (extractAllRegions_connectivity exampleGrid exampleGrid_rect).
Defined.

(** C5. For every (rectangular) occupancy grid the labelling returns a grid
    over the same cells in which every cell holds OCCUPIED_MARK or a
    positive label, none the sentinel 0; when no input cell is FREE, every
    cell holds OCCUPIED_MARK. *)
Theorem extractAllRegions_coverage occ :
  np.rect occ →
  ∃ L, extractAllRegions occ = Ret L ∧
    (∀ c, is_Some (np.at_ L c) ↔ is_Some (np.at_ occ c)) ∧
    Forall (Forall (λ v, v = OCCUPIED_MARK ∨ 0 < v)) L ∧
    ((∀ c, ¬ isFree occ c) → Forall (Forall (λ v, v = OCCUPIED_MARK)) L).
Proof.
  intros Hr. destruct (extractAllRegions_spec occ Hr) as (L & R & HL & HR & HI & Hnz).
  pose proof (markOccupied_binary occ) as Hb.
  exists L. split_and!; [done | | |].
  - intros c. rewrite <- (markOccupied_dom occ c). exact (labelInv_dom _ _ _ c Hb HI).
  - apply Forall_cells. intros c v Hv.
    destruct (labelInv_values _ _ _ _ _ Hb HI Hv) as [->|[->|?]];
      [by left | by apply Hnz in Hv | right; lia].
  - intros Hnofree. apply Forall_cells. intros c v Hv.
    destruct (li_dom _ _ _ HI c) as [w Hw]; [eauto|].
    destruct (Hb _ _ Hw) as [->| ->].
    + apply (li_occ _ _ _ HI) in Hw. unfold OCCUPIED_MARK. congruence.
    + by apply markOccupied_free, Hnofree in Hw.
Qed.

Lemma extractAllRegions_coverage_witness :
  np.rect exampleGrid ∧
  ∃ L, extractAllRegions exampleGrid = Ret L ∧
    (∀ c, is_Some (np.at_ L c) ↔ is_Some (np.at_ exampleGrid c)) ∧
    Forall (Forall (λ v, v = OCCUPIED_MARK ∨ 0 < v)) L ∧
    ((∀ c, ¬ isFree exampleGrid c) → Forall (Forall (λ v, v = OCCUPIED_MARK)) L).
Proof.
  split; [exact exampleGrid_rect|].
  exact (extractAllRegions_coverage exampleGrid exampleGrid_rect).
Defined.

(** C7. For every (rectangular) occupancy grid the positive labels of the
    labelling are exactly 1..R for some R ≥ 0, and the regions are numbered
    in the order of the row-major scan: the first cell of region k comes
    after cells that are occupied or belong to regions below k only, and
    the first cells of the regions come in the order of their labels. *)
Theorem extractAllRegions_labels occ :
  np.rect occ →
  ∃ L R, extractAllRegions occ = Ret L ∧ 0 ≤ R ∧
    (∀ c v, np.at_ L c = Some v → 0 < v → v ≤ R) ∧
    (∀ k, 1 ≤ k ≤ R → ∃ c, np.at_ L c = Some k) ∧
    (∀ k, 1 ≤ k ≤ R →
       ∃ s, firstCell L k = Some s ∧
            ∀ c v, cell_lt c s → np.at_ L c = Some v → v = OCCUPIED_MARK ∨ v < k) ∧
    (∀ k k', 1 ≤ k → k < k' → k' ≤ R →
       ∃ s s', firstCell L k = Some s ∧ firstCell L k' = Some s' ∧ cell_lt s s').
Proof.
  intros Hr. destruct (extractAllRegions_spec occ Hr) as (L & R & HL & HR & HI & Hnz).
  pose proof (markOccupied_binary occ) as Hb.
  exists L, R. split_and!; [done | done | | | |].
  - intros c v Hv Hpos. destruct (labelInv_values _ _ _ _ _ Hb HI Hv) as [?|[?|?]]; lia.
  - intros k Hk. destruct (labelInv_firstCell _ _ _ k HI) as (s & _ & Hs & _); [lia|].
    eauto.
  - intros k Hk. destruct (labelInv_firstCell _ _ _ k HI) as (s & Hfs & _ & Hbefore); [lia|].
    exists s. split; [done|]. intros c v Hlt Hv.
    destruct (Hbefore c v Hlt Hv); [by left | right; lia].
  - intros k k' Hk Hkk' Hk'.
    destruct (labelInv_firstCell _ _ _ k HI) as (s & Hfs & Hs & Hbefore); [lia|].
    destruct (labelInv_firstCell _ _ _ k' HI) as (s' & Hfs' & Hs' & _); [lia|].
    exists s, s'. split_and!; [done | done |].
    destruct (cell_lt_total s s') as [?|[->|Hlt]]; [done | | ].
    + assert (k = k') by congruence. lia.
    + destruct (Hbefore s' k' Hlt Hs'); lia.
Qed.

Lemma extractAllRegions_labels_witness :
  np.rect exampleGrid ∧
  ∃ L R, extractAllRegions exampleGrid = Ret L ∧ 0 ≤ R ∧
    (∀ c v, np.at_ L c = Some v → 0 < v → v ≤ R) ∧
    (∀ k, 1 ≤ k ≤ R → ∃ c, np.at_ L c = Some k) ∧
    (∀ k, 1 ≤ k ≤ R →
       ∃ s, firstCell L k = Some s ∧
            ∀ c v, cell_lt c s → np.at_ L c = Some v → v = OCCUPIED_MARK ∨ v < k) ∧
    (∀ k k', 1 ≤ k → k < k' → k' ≤ R →
       ∃ s s', firstCell L k = Some s ∧ firstCell L k' = Some s' ∧ cell_lt s s').
Proof.
  split; [exact exampleGrid_rect|].
  exact (extractAllRegions_labels exampleGrid exampleGrid_rect).
Defined.

(** ** The labelling writes to its own copy *)

Lemma InPlace_grassfire_refine fuel (σ : InPlace.store) q heap visited cur :
  is_Some (σ !! q) →
  InPlace.grassfire fuel σ q heap visited cur =
  (g ← grassfire fuel (σ !!! q) heap visited cur; Ret (<[q := g]> σ)).
Proof.
  revert σ heap visited. induction fuel as [|fuel IH]; intros σ heap visited [a Ha]; [done|].
  destruct heap as [|[i j] heap]; simpl.
  - rewrite (lookup_total_correct _ _ _ Ha). by rewrite insert_id.
  - rewrite !lookup_total_insert_eq. rewrite IH by (rewrite lookup_insert_eq; eauto).
    rewrite lookup_total_insert_eq.
    destruct (grassfire fuel _ _ _ cur); simpl; [|done..].
    unfold mret, outcome_ret. by rewrite insert_insert_eq.
Qed.

Lemma InPlace_labelLoop_refine fuel (σ : InPlace.store) q cur :
  is_Some (σ !! q) →
  InPlace.labelLoop fuel σ q cur =
  ('(g, R) ← labelLoop fuel (σ !!! q) cur; Ret (<[q := g]> σ, R)).
Proof.
  revert σ cur. induction fuel as [|fuel IH]; intros σ cur [a Ha]; [done|].
  cbn [InPlace.labelLoop labelLoop].
  destruct (0 <? np.count_nonzero (np.eq (σ !!! q) 0)).
  - destruct (np.argwhere (np.eq (σ !!! q) 0)) as [|s rest]; [done|].
    rewrite InPlace_grassfire_refine by eauto.
    destruct (grassfire _ _ _ _ cur) as [g| |]; [|done..].
    rewrite !bind_Ret. rewrite IH by (rewrite lookup_insert_eq; eauto).
    rewrite lookup_total_insert_eq.
    destruct (labelLoop fuel g (cur + 1)) as [[g' R]| |]; [|done..].
    rewrite !bind_Ret. by rewrite insert_insert_eq.
  - rewrite bind_Ret. rewrite (lookup_total_correct _ _ _ Ha). by rewrite insert_id.
Qed.

Lemma InPlace_extractAllRegions_refine (σ : InPlace.store) p :
  InPlace.extractAllRegions σ p =
  (L ← extractAllRegions (σ !!! p); Ret (fresh (dom σ), <[fresh (dom σ) := L]> σ)).
Proof.
  unfold InPlace.extractAllRegions, extractAllRegions, InPlace.astype.
  set (q := fresh (dom σ)). rewrite !lookup_total_insert_eq.
  rewrite InPlace_labelLoop_refine by (rewrite lookup_insert_eq; eauto).
  rewrite lookup_total_insert_eq. fold (markOccupied (σ !!! p)).
  destruct (labelLoop _ _ 1) as [[g R]| |]; [|done..].
  rewrite !bind_Ret. rewrite lookup_total_insert_eq. rewrite !insert_insert_eq.
  by destruct (np.all (np.ne g 0)).
Qed.

(** C9. The labelling does not change the caller's array: called on the
    reference [p] of a (rectangular) array, it returns a reference [q] to a
    newly allocated array holding the label grid, and the store after the
    call differs from the store before it at [q] only; at [p], and at every
    other reference, it holds what it held. *)
Theorem extractAllRegions_input_unchanged (σ : InPlace.store) p occ :
  σ !! p = Some occ → np.rect occ →
  ∃ q L σ', InPlace.extractAllRegions σ p = Ret (q, σ') ∧
    extractAllRegions occ = Ret L ∧
    q ≠ p ∧ σ !! q = None ∧ σ' !! q = Some L ∧ σ' !! p = Some occ ∧
    ∀ p', p' ≠ q → σ' !! p' = σ !! p'.
Proof.
  intros Hp Hr. rewrite InPlace_extractAllRegions_refine.
  rewrite (lookup_total_correct _ _ _ Hp).
  destruct (extractAllRegions_spec occ Hr) as (L & R & -> & _).
  rewrite bind_Ret.
  assert (σ !! fresh (dom σ) = None) as Hq by (apply not_elem_of_dom, is_fresh).
  assert (fresh (dom σ) ≠ p) as Hne by congruence.
  exists (fresh (dom σ)), L, (<[fresh (dom σ) := L]> σ).
  split_and!; [done | done | done | done | | |].
  - apply lookup_insert_eq.
  - by rewrite lookup_insert_ne.
  - intros p' Hp'. by rewrite lookup_insert_ne.
Qed.

Lemma extractAllRegions_input_unchanged_witness :
  exampleStore !! 1%positive = Some exampleGrid ∧ np.rect exampleGrid ∧
  ∃ q L σ', InPlace.extractAllRegions exampleStore 1%positive = Ret (q, σ') ∧
    extractAllRegions exampleGrid = Ret L ∧
    q ≠ 1%positive ∧ exampleStore !! q = None ∧ σ' !! q = Some L ∧
    σ' !! 1%positive = Some exampleGrid ∧
    ∀ p', p' ≠ q → σ' !! p' = exampleStore !! p'.
Proof.
  split; [reflexivity|]. split; [exact exampleGrid_rect|].
  exact (extractAllRegions_input_unchanged exampleStore 1%positive exampleGrid
           eq_refl exampleGrid_rect).
Defined.

(** ** The area filter as a renumbering *)

Lemma Qltb_lt x y : Qltb x y = true ↔ (x < y)%Q.
Proof.
  unfold Qltb. rewrite negb_true_iff. split.
  - intros H. apply Qnot_le_lt. intros Hle%Qle_bool_iff. congruence.
  - intros H. destruct (Qle_bool y x) eqn:E; [|done].
    apply Qle_bool_iff in E. by apply Qlt_not_le in H.
Qed.

Lemma Qltb_ge x y : Qltb x y = false ↔ (y <= x)%Q.
Proof.
  unfold Qltb. rewrite negb_false_iff. apply Qle_bool_iff.
Qed.

Lemma map_map_ext_in {A B} (f g : A → B) (a : np.ndarray A) :
  (∀ c x, np.at_ a c = Some x → f x = g x) → map (map f) a = map (map g) a.
Proof.
  intros H. apply map_ext_in. intros row Hrow%list_elem_of_In.
  apply map_ext_in. intros x Hx%list_elem_of_In.
  destruct (elem_at a row x Hrow Hx) as [c Hc]. eauto.
Qed.

Lemma map_map_id {A} (f : A → A) (a : np.ndarray A) :
  (∀ x, f x = x) → map (map f) a = a.
Proof.
  intros H. induction a as [|row a IH]; simpl; [done|]. f_equal; [|done].
  clear IH. induction row as [|x row IH]; simpl; [done|]. by f_equal.
Qed.

Section filter.
Variables (cellArea minRegionArea : Q) (labeled : np.ndarray Z).

Abbreviation S_ := (survives cellArea minRegionArea labeled).
Abbreviation newId_ := (newId cellArea minRegionArea labeled).
Abbreviation rename_ := (rename cellArea minRegionArea labeled).

Lemma seqZ_snoc (n : nat) : seqZ 1 (Z.of_nat (S n)) = seqZ 1 (Z.of_nat n) ++ [1 + Z.of_nat n].
Proof. apply seqZ_S. Qed.

Lemma newId_succ r :
  1 ≤ r → newId_ (r + 1) = newId_ r + (if S_ r then 1 else 0).
Proof.
  intros Hr. unfold newId. replace (r + 1 - 1) with (Z.of_nat (S (Z.to_nat (r - 1)))) by lia.
  rewrite seqZ_snoc. replace (Z.of_nat (Z.to_nat (r - 1))) with (r - 1) by lia.
  replace (1 + (r - 1)) with r by lia.
  rewrite filter_app, length_app. destruct (S_ r) eqn:E.
  - rewrite filter_cons_True by done. simpl. lia.
  - rewrite filter_cons_False by congruence. simpl. lia.
Qed.

Lemma newId_ge_1 r : 1 ≤ newId_ r.
Proof. unfold newId. lia. Qed.

Lemma newId_mono r r' : 1 ≤ r → r ≤ r' → newId_ r ≤ newId_ r'.
Proof.
  intros Hr Hle. replace r' with (r + Z.of_nat (Z.to_nat (r' - r))) by lia.
  induction (Z.to_nat (r' - r)) as [|n IH]; [by rewrite Z.add_0_r|].
  replace (r + Z.of_nat (S n)) with (r + Z.of_nat n + 1) by lia.
  rewrite newId_succ by lia. destruct (S_ (r + Z.of_nat n)); lia.
Qed.

Lemma newId_le r : 1 ≤ r → newId_ r ≤ r.
Proof.
  intros Hr. unfold newId.
  pose proof (length_filter (λ r', S_ r' = true) (seqZ 1 (r - 1))) as Hlen.
  rewrite length_seqZ in Hlen. lia.
Qed.

Lemma newId_strict r r' : 1 ≤ r → r < r' → S_ r = true → newId_ r < newId_ r'.
Proof.
  intros Hr Hlt HS. pose proof (newId_mono (r + 1) r'). pose proof (newId_succ r Hr) as Hs.
  rewrite HS in Hs. lia.
Qed.

Lemma newId_inj r r' :
  1 ≤ r → 1 ≤ r' → S_ r = true → S_ r' = true → newId_ r = newId_ r' → r = r'.
Proof.
  intros Hr Hr' HS HS' Heq. destruct (Z.lt_trichotomy r r') as [Hlt|[?|Hlt]]; [|done|].
  - pose proof (newId_strict r r' Hr Hlt HS). lia.
  - pose proof (newId_strict r' r Hr' Hlt HS'). lia.
Qed.

Lemma newId_surj m k :
  0 ≤ m → 1 ≤ k < newId_ (m + 1) → ∃ v, 1 ≤ v ≤ m ∧ S_ v = true ∧ newId_ v = k.
Proof.
  intros Hm. replace m with (Z.of_nat (Z.to_nat m)) by lia.
  induction (Z.to_nat m) as [|n IH]; intros Hk.
  - unfold newId in Hk. simpl in Hk. lia.
  - replace (Z.of_nat (S n) + 1) with ((Z.of_nat n + 1) + 1) in Hk by lia.
    rewrite newId_succ in Hk by lia.
    destruct (decide (k < newId_ (Z.of_nat n + 1))) as [Hlt|Hge].
    + destruct IH as (v & ? & ? & ?); [lia|]. exists v. split; [lia | done].
    + destruct (S_ (Z.of_nat n + 1)) eqn:E; [|lia].
      exists (Z.of_nat n + 1). split; [lia|]. split; [done | lia].
Qed.

Lemma rename_eqb m r x :
  0 ≤ m → r = m + 1 → (rename_ m x =? r) = (x =? r).
Proof.
  intros Hm ->. unfold rename.
  destruct ((1 <=? x) && (x <=? m)) eqn:Hx; [|done].
  assert (1 ≤ x ≤ m) as Hx' by lia. pose proof (newId_le x).
  destruct (S_ x); lia.
Qed.

Lemma rename_step m w x :
  0 ≤ m → w = (if S_ (m + 1) then newId_ (m + 1) else -1) →
  (if rename_ m x =? m + 1 then w else rename_ m x) = rename_ (m + 1) x.
Proof.
  intros Hm ->. rewrite (rename_eqb m (m + 1)) by done. unfold rename.
  destruct (Z.eqb_spec x (m + 1)) as [->|Hne].
  - assert ((1 <=? m + 1) && (m + 1 <=? m + 1) = true) as -> by lia. done.
  - destruct ((1 <=? x) && (x <=? m)) eqn:Hx.
    + assert ((1 <=? x) && (x <=? m + 1) = true) as -> by lia. done.
    + assert ((1 <=? x) && (x <=? m + 1) = false) as -> by lia. done.
Qed.

Lemma np_eq_rename m :
  0 ≤ m → np.eq (map (map (rename_ m)) labeled) (m + 1) = np.eq labeled (m + 1).
Proof.
  intros Hm. unfold np.eq. rewrite map_map.
  apply map_ext. intros row. rewrite map_map. apply map_ext. intros x.
  by apply rename_eqb.
Qed.

(** The loop of [generateOccupancyMap], in closed form. *)
Lemma filter_fold (n : nat) :
  let m := Z.of_nat n in
  foldl (filterStep cellArea minRegionArea) (labeled, 1, []) (seqZ 1 m) =
  (map (map (rename_ m)) labeled, newId_ (m + 1),
   map (λ r, (inject_Z (cellCount labeled r) * cellArea)%Q)
       (filter (λ r, S_ r = true) (seqZ 1 m))).
Proof.
  induction n as [|n IH].
  - simpl. f_equal. f_equal. symmetry. apply map_map_id.
    intros x. unfold rename. destruct ((1 <=? x) && (x <=? _)) eqn:E; [|done].
    exfalso. change (Z.of_nat 0) with 0 in E. lia.
  - cbv zeta in *. rewrite seqZ_snoc, foldl_app, IH. cbn [foldl filterStep].
    replace (1 + Z.of_nat n) with (Z.of_nat n + 1) by lia.
    rewrite np_eq_rename by lia. fold (cellCount labeled (Z.of_nat n + 1)).
    replace (Z.of_nat (S n) + 1) with (Z.of_nat n + 1 + 1) by lia.
    rewrite (newId_succ (Z.of_nat n + 1)) by lia. rewrite filter_app, map_app.
    rewrite <- (np_eq_rename (Z.of_nat n)) by lia. unfold np.eq.
    rewrite !mask_assign_self, !map_map.
    replace (Z.of_nat (S n)) with (Z.of_nat n + 1) by lia.
    assert (S_ (Z.of_nat n + 1) =
            negb (Qltb (inject_Z (cellCount labeled (Z.of_nat n + 1)) * cellArea)
                       minRegionArea)) as HS by done.
    destruct (Qltb (inject_Z (cellCount labeled (Z.of_nat n + 1)) * cellArea) minRegionArea);
      simpl in HS.
    + rewrite filter_cons_False by congruence. rewrite HS.
      rewrite filter_nil, app_nil_r, Z.add_0_r. f_equal. f_equal.
      apply map_ext. intros row. rewrite map_map. apply map_ext. intros x.
      apply rename_step; [lia|]. by rewrite HS.
    + rewrite filter_cons_True by done. rewrite HS.
      rewrite filter_nil. f_equal. f_equal.
      apply map_ext. intros row. rewrite map_map. apply map_ext. intros x.
      apply rename_step; [lia|]. by rewrite HS.
Qed.

End filter.

(** ** np.max *)

Lemma foldl_max_spec (l : list Z) x :
  (x ≤ foldl Z.max x l) ∧ (∀ y, y ∈ l → y ≤ foldl Z.max x l) ∧
  (foldl Z.max x l = x ∨ foldl Z.max x l ∈ l).
Proof.
  revert x. induction l as [|y l IH]; intros x; simpl.
  - split_and!; [lia | by intros ? ?%elem_of_nil | by left].
  - destruct (IH (Z.max x y)) as (H1 & H2 & H3). split_and!.
    + lia.
    + intros y' [->|Hy']%elem_of_cons; [lia | by apply H2].
    + destruct H3 as [H3|H3].
      * destruct (Z.max_spec x y) as [[_ Hm]|[_ Hm]].
        -- right. rewrite H3, Hm. by left.
        -- left. by rewrite H3.
      * right. by right.
Qed.

Lemma elem_of_concat_cells {A} (a : np.ndarray A) x :
  x ∈ concat a ↔ ∃ c, np.at_ a c = Some x.
Proof.
  rewrite list_elem_of_In, in_concat. split.
  - intros (row & Hrow%list_elem_of_In & Hx%list_elem_of_In). by eapply elem_at.
  - intros [c (row & ? & ?)%at_elem]. exists row. by rewrite <- !list_elem_of_In.
Qed.

Lemma np_max_Ret a m :
  np.max a = Ret m →
  (∀ c x, np.at_ a c = Some x → x ≤ m) ∧ ∃ c, np.at_ a c = Some m.
Proof.
  unfold np.max. destruct (concat a) as [|x l] eqn:Hc; [done|]. intros [= <-].
  destruct (foldl_max_spec l x) as (H1 & H2 & H3). split.
  - intros c y Hy. assert (y ∈ concat a) as Hin by (apply elem_of_concat_cells; eauto).
    rewrite Hc in Hin. apply elem_of_cons in Hin as [->|Hin]; auto.
  - apply elem_of_concat_cells. rewrite Hc. destruct H3 as [->|H3]; [by left | by right].
Qed.

Lemma np_max_is_Ret a : np.size a ≠ 0%nat → ∃ m, np.max a = Ret m.
Proof.
  unfold np.size, np.max. destruct (concat a); [done | eauto].
Qed.

Lemma np_max_Raise a cls : np.max a = Raise cls → cls = "ValueError" ∧ np.size a = 0%nat.
Proof.
  unfold np.size, np.max. destruct (concat a); [|done]. by intros [= <-].
Qed.

Lemma seqZ_to_nat m n : seqZ m n = seqZ m (Z.of_nat (Z.to_nat n)).
Proof. unfold seqZ. by rewrite Nat2Z.id. Qed.

(** ** The labelled grid, as the later steps need it *)

Lemma extractAllRegions_labelled occ :
  np.rect occ →
  ∃ L R, extractAllRegions occ = Ret L ∧ labelled L R ∧ np.size L = np.size occ ∧
         (∀ c, is_Some (np.at_ L c) ↔ is_Some (np.at_ occ c)).
Proof.
  intros Hr. destruct (extractAllRegions_spec occ Hr) as (L & R & HL & HR & HI & Hnz).
  pose proof (markOccupied_binary occ) as Hb.
  exists L, R. split_and!; [done | split | |].
  - done.
  - apply (li_rect _ _ _ HI).
  - intros c v Hv. destruct (labelInv_values _ _ _ _ _ Hb HI Hv) as [?|[->|?]];
      [by left | by apply Hnz in Hv | right; lia].
  - intros k Hk. destruct (labelInv_firstCell _ _ _ k HI) as (s & _ & Hs & _); [lia|].
    eauto.
  - intros k k' Hk Hkk' Hk'.
    destruct (labelInv_firstCell _ _ _ k HI) as (s & Hfs & Hs & Hbefore); [lia|].
    destruct (labelInv_firstCell _ _ _ k' HI) as (s' & Hfs' & Hs' & _); [lia|].
    exists s, s'. split_and!; [done | done |].
    destruct (cell_lt_total s s') as [?|[->|Hlt]]; [done | | ].
    + assert (k = k') by congruence. lia.
    + destruct (Hbefore s' k' Hlt Hs'); lia.
  - rewrite (li_size _ _ _ HI), markOccupied_map. apply size_map.
  - intros c. rewrite <- (markOccupied_dom occ c). exact (labelInv_dom _ _ _ c Hb HI).
Qed.

Lemma labelled_max L R nb :
  labelled L R → np.max L = Ret nb → seqZ 1 nb = seqZ 1 R.
Proof.
  intros HL (Hle & c & Hc)%np_max_Ret.
  destruct (lb_values _ _ HL c nb Hc) as [->|Hnb].
  - destruct (decide (R = 0)) as [->|HR]; [done|].
    destruct (lb_used _ _ HL 1) as [c1 Hc1]; [pose proof (lb_R _ _ HL); lia|].
    apply Hle in Hc1. lia.
  - destruct (lb_used _ _ HL R) as [cR HcR]; [lia|]. apply Hle in HcR.
    by replace nb with R by lia.
Qed.

Section filtered.
Variables (cellArea minRegionArea : Q) (L : np.ndarray Z) (R : Z).
Hypothesis HL : labelled L R.

Abbreviation S_ := (survives cellArea minRegionArea L).
Abbreviation newId_ := (newId cellArea minRegionArea L).
Abbreviation F_ := (map (map (rename cellArea minRegionArea L R)) L).

Lemma filterRegions_closed nb :
  np.max L = Ret nb →
  filterRegions cellArea minRegionArea nb L =
  (F_, newId_ (R + 1),
   map (λ r, (inject_Z (cellCount L r) * cellArea)%Q)
       (filter (λ r, S_ r = true) (seqZ 1 R))).
Proof.
  intros Hnb. unfold filterRegions. rewrite (labelled_max L R nb HL Hnb).
  pose proof (lb_R _ _ HL). rewrite (seqZ_to_nat 1 R).
  pose proof (filter_fold cellArea minRegionArea L (Z.to_nat R)) as Hf.
  cbv zeta in Hf. rewrite Hf. by replace (Z.of_nat (Z.to_nat R)) with R by lia.
Qed.

Lemma at_F c : np.at_ F_ c = rename cellArea minRegionArea L R <$> np.at_ L c.
Proof. apply at_map. Qed.

Lemma rename_survivor v :
  1 ≤ v ≤ R → S_ v = true → rename cellArea minRegionArea L R v = newId_ v.
Proof.
  intros Hv HS. unfold rename. assert ((1 <=? v) && (v <=? R) = true) as -> by lia.
  by rewrite HS.
Qed.

Lemma rename_positive v k :
  v = -1 ∨ 1 ≤ v ≤ R → rename cellArea minRegionArea L R v = k → 0 < k →
  1 ≤ v ≤ R ∧ S_ v = true ∧ k = newId_ v.
Proof.
  intros Hv Hk Hpos. unfold rename in Hk.
  destruct ((1 <=? v) && (v <=? R)) eqn:E; [|lia].
  destruct (S_ v); [|lia]. split; [lia|done].
Qed.

(** The cells that carry the new label of a surviving region are the cells
    that carried its old label. *)
Lemma np_eq_F v :
  1 ≤ v ≤ R → S_ v = true → np.eq F_ (newId_ v) = np.eq L v.
Proof.
  intros Hv HS. unfold np.eq. rewrite map_map.
  erewrite (map_ext (λ x, map _ (map _ x))); [|intros row; apply map_map].
  apply (map_map_ext_in (λ x, rename cellArea minRegionArea L R x =? newId_ v) (λ x, x =? v)).
  intros c x Hx. destruct (lb_values _ _ HL c x Hx) as [->|Hx1].
  - unfold rename. assert ((1 <=? -1) && (-1 <=? R) = false) as -> by lia.
    pose proof (newId_ge_1 cellArea minRegionArea L v).
    destruct (Z.eqb_spec (-1) (newId_ v)); destruct (Z.eqb_spec (-1) v);
      (done || (exfalso; lia)).
  - unfold rename. assert ((1 <=? x) && (x <=? R) = true) as -> by lia.
    destruct (S_ x) eqn:HSx.
    + destruct (Z.eqb_spec x v) as [->|Hne]; [apply Z.eqb_refl|].
      apply Z.eqb_neq. intros Heq. apply Hne.
      by apply (newId_inj cellArea minRegionArea L); [lia | lia | | |].
    + pose proof (newId_ge_1 cellArea minRegionArea L v).
      destruct (Z.eqb_spec x v) as [->|Hne]; [congruence|].
      apply Z.eqb_neq. lia.
Qed.

Lemma cellCount_F v :
  1 ≤ v ≤ R → S_ v = true → cellCount F_ (newId_ v) = cellCount L v.
Proof. intros. unfold cellCount. by rewrite np_eq_F. Qed.


Lemma F_values c k :
  np.at_ F_ c = Some k → k = -1 ∨ 1 ≤ k ≤ newId_ (R + 1) - 1.
Proof.
  rewrite at_F. destruct (np.at_ L c) as [v|] eqn:Hv; [|done]. intros [= <-].
  destruct (lb_values _ _ HL c v Hv) as [->|Hv1]; [by left|].
  unfold rename. assert ((1 <=? v) && (v <=? R) = true) as -> by lia.
  destruct (S_ v) eqn:HS; [right | by left].
  pose proof (newId_ge_1 cellArea minRegionArea L v).
  pose proof (newId_strict cellArea minRegionArea L v (R + 1) ltac:(lia) ltac:(lia) HS).
  lia.
Qed.

Lemma F_used k :
  1 ≤ k ≤ newId_ (R + 1) - 1 → ∃ v c, 1 ≤ v ≤ R ∧ S_ v = true ∧ k = newId_ v ∧
                                    np.at_ L c = Some v ∧ np.at_ F_ c = Some k.
Proof.
  intros Hk. destruct (newId_surj cellArea minRegionArea L R k) as (v & Hv & HS & Hid).
  { apply (lb_R _ _ HL). } { lia. }
  destruct (lb_used _ _ HL v Hv) as [c Hc]. exists v, c.
  split; [done|]. split; [done|]. split; [done|]. split; [done|].
  rewrite at_F, Hc. simpl. rewrite rename_survivor by done. by rewrite Hid.
Qed.

Lemma areas_F :
  map (λ r, (inject_Z (cellCount L r) * cellArea)%Q)
      (filter (λ r, S_ r = true) (seqZ 1 R)) =
  map (λ k, (inject_Z (cellCount F_ k) * cellArea)%Q) (seqZ 1 (newId_ (R + 1) - 1)).
Proof.
  pose proof (lb_R _ _ HL) as HR.
  assert (∀ n : nat, Z.of_nat n ≤ R →
    map (λ r, (inject_Z (cellCount L r) * cellArea)%Q)
        (filter (λ r, S_ r = true) (seqZ 1 (Z.of_nat n))) =
    map (λ k, (inject_Z (cellCount F_ k) * cellArea)%Q)
        (seqZ 1 (newId_ (Z.of_nat n + 1) - 1))) as Hgen.
  { induction n as [|n IH]; intros Hn; [done|].
    rewrite seqZ_snoc, filter_app, map_app, IH by lia.
    replace (Z.of_nat (S n) + 1) with (Z.of_nat n + 1 + 1) by lia.
    rewrite (newId_succ _ _ _ (Z.of_nat n + 1)) by lia.
    replace (1 + Z.of_nat n) with (Z.of_nat n + 1) by lia.
    pose proof (newId_ge_1 cellArea minRegionArea L (Z.of_nat n + 1)) as Hge.
    destruct (S_ (Z.of_nat n + 1)) eqn:HS.
    - rewrite filter_cons_True by done. rewrite filter_nil.
      replace (newId_ (Z.of_nat n + 1) + 1 - 1)
        with ((newId_ (Z.of_nat n + 1) - 1) + 1) by lia.
      rewrite seqZ_app by lia. rewrite map_app. f_equal.
      change (seqZ ?m 1) with [m]. simpl.
      replace (1 + (newId_ (Z.of_nat n + 1) - 1)) with (newId_ (Z.of_nat n + 1)) by lia.
      rewrite cellCount_F; [done | lia | done].
    - rewrite filter_cons_False by congruence. rewrite filter_nil, app_nil_r.
      by rewrite Z.add_0_r. }
  specialize (Hgen (Z.to_nat R)). replace (Z.of_nat (Z.to_nat R)) with R in Hgen by lia.
  apply Hgen. lia.
Qed.

Lemma F_all_ne : np.all (np.ne F_ 0) = true.
Proof.
  apply all_ne_cells. intros c Hc. apply F_values in Hc. lia.
Qed.

End filtered.

(** ** generateOccupancyMap *)

Lemma generateOccupancyMap_closed self T z precision occ coord :
  physicWorld self z precision = (occ, coord) → np.rect occ → np.size occ ≠ 0%nat →
  ∃ L R nb,
    extractAllRegions occ = Ret L ∧ labelled L R ∧ np.max L = Ret nb ∧
    (∀ c, is_Some (np.at_ L c) ↔ is_Some (np.at_ occ c)) ∧
    generateOccupancyMap self T z precision =
    Ret (mkEnv (physicWorld self)
               (Some (map (map (rename (precision ^ 2) T L R)) L)) (Some coord),
         (map (map (rename (precision ^ 2) T L R)) L, coord)).
Proof.
  intros Hphys Hr Hsize.
  destruct (extractAllRegions_labelled occ Hr) as (L & R & HL & Hlab & Hsz & Hdom).
  destruct (np_max_is_Ret L) as [nb Hnb]; [congruence|].
  exists L, R, nb. split_and!; [done..|].
  unfold generateOccupancyMap. rewrite Hphys, HL, bind_Ret, Hnb, bind_Ret.
  rewrite (filterRegions_closed _ _ L R Hlab nb Hnb).
  by rewrite (F_all_ne _ _ L R Hlab).
Qed.

Lemma exampleGrid_size : np.size exampleGrid ≠ 0%nat.
Proof. discriminate. Defined.



(** C3, as the code has it.  [generateOccupancyMap] returns the filtered map
    and, as second component, the coordinate map of the physics backend;
    the list [regionAreas] that the loop builds is not returned.  That list
    is the list of the areas cellCount × cellArea of the R' surviving
    regions, in the order of their new labels 1..R'. *)
Theorem generateOccupancyMap_returns_coordinates self T z precision occ coord :
  physicWorld self z precision = (occ, coord) → np.rect occ → np.size occ ≠ 0%nat →
  ∃ L nb F R' regionAreas self',
    extractAllRegions occ = Ret L ∧ np.max L = Ret nb ∧
    filterRegions (precision ^ 2) T nb L = (F, R' + 1, regionAreas) ∧
    generateOccupancyMap self T z precision = Ret (self', (F, coord)) ∧
    occupancyMapCoord self' = Some coord ∧
    0 ≤ R' ∧
    (∀ c v, np.at_ F c = Some v → v = OCCUPIED_MARK ∨ 1 ≤ v ≤ R') ∧
    (∀ k, 1 ≤ k ≤ R' → ∃ c, np.at_ F c = Some k) ∧
    regionAreas =
      map (λ k, (inject_Z (cellCount F k) * precision ^ 2)%Q) (seqZ 1 R').
Proof.
  intros Hphys Hr Hsize.
  destruct (generateOccupancyMap_closed self T z precision occ coord Hphys Hr Hsize)
    as (L & R & nb & HL & Hlab & Hnb & Hdom & Hgen).
  set (ca := (precision ^ 2)%Q) in *.
  eexists L, nb, _, (newId ca T L (R + 1) - 1), _, _.
  split_and!; [done | done | | exact Hgen | done | | | |].
  - rewrite (filterRegions_closed _ _ L R Hlab nb Hnb). f_equal. f_equal. lia.
  - pose proof (newId_ge_1 ca T L (R + 1)). lia.
  - intros c v Hv. by apply (F_values ca T L R Hlab c).
  - intros k Hk. destruct (F_used ca T L R Hlab k Hk) as (v & c & _ & _ & _ & _ & Hc).
    eauto.
  - apply (areas_F ca T L R Hlab).
Qed.

Lemma generateOccupancyMap_returns_coordinates_witness :
  physicWorld exampleEnv 1 1 = (exampleGrid, exampleCoords) ∧
  np.rect exampleGrid ∧ np.size exampleGrid ≠ 0%nat ∧
  ∃ L nb F R' regionAreas self',
    extractAllRegions exampleGrid = Ret L ∧ np.max L = Ret nb ∧
    filterRegions (1 ^ 2) 2 nb L = (F, R' + 1, regionAreas) ∧
    generateOccupancyMap exampleEnv 2 1 1 = Ret (self', (F, exampleCoords)) ∧
    occupancyMapCoord self' = Some exampleCoords ∧
    0 ≤ R' ∧
    (∀ c v, np.at_ F c = Some v → v = OCCUPIED_MARK ∨ 1 ≤ v ≤ R') ∧
    (∀ k, 1 ≤ k ≤ R' → ∃ c, np.at_ F c = Some k) ∧
    regionAreas = map (λ k, (inject_Z (cellCount F k) * 1 ^ 2)%Q) (seqZ 1 R').
Proof.
  split; [reflexivity|]. split; [exact exampleGrid_rect|]. split; [exact exampleGrid_size|].
  exact (generateOccupancyMap_returns_coordinates exampleEnv 2 1 1 exampleGrid
           exampleCoords eq_refl exampleGrid_rect exampleGrid_size).
Defined.

(** C3 as stated fails: the second component is not the list of the areas.
    Two environments with the same occupancy grid, cell size and threshold,
    and so the same regions and the same [regionAreas] (4 and 8), return
    different second components, each its own coordinate map, of four rows
    where there are two surviving regions. *)
Lemma generateOccupancyMap_second_component_counterexample :
  generateOccupancyMap exampleEnv 2 1 1 =
    Ret (mkEnv (physicWorld exampleEnv) (Some exampleFiltered) (Some exampleCoords),
         (exampleFiltered, exampleCoords)) ∧
  generateOccupancyMap exampleEnv' 2 1 1 =
    Ret (mkEnv (physicWorld exampleEnv') (Some exampleFiltered) (Some exampleCoords'),
         (exampleFiltered, exampleCoords')) ∧
  exampleCoords ≠ exampleCoords' ∧
  (filterRegions (1 ^ 2) 2 3
     [[1; 1; -1; 2; 2]; [1; 1; -1; 2; 2]; [-1; -1; -1; -1; 2]; [3; -1; 2; 2; 2]]).2
    = [4%Q; 8%Q] ∧
  length exampleCoords ≠ length [4%Q; 8%Q].
Proof.
  split_and!; [by vm_compute | by vm_compute | | by vm_compute | by vm_compute].
  intros H. by vm_compute in H.
Qed.

(** ** generateSpawnPositions: the frame around the draws *)

Lemma generateOccupancyMap_Ret self T z precision self1 F coord :
  generateOccupancyMap self T z precision = Ret (self1, (F, coord)) →
  self1 = mkEnv (physicWorld self) (Some F) (Some coord).
Proof.
  unfold generateOccupancyMap. destruct (physicWorld self z precision) as [occ cm].
  destruct (extractAllRegions occ) as [L| |]; [|done..]. rewrite bind_Ret.
  destruct (np.max L) as [nb| |]; [|done..]. rewrite bind_Ret.
  destruct (filterRegions _ _ nb L) as [[F' cv] areas].
  destruct (np.all (np.ne F' 0)); [|done]. by intros [= <- <- <-].
Qed.

Lemma generateSpawnPositions_unfold self n T z precision g self1 F coord :
  generateOccupancyMap self T z precision = Ret (self1, (F, coord)) →
  generateSpawnPositions self n T z precision g =
  ('(g1, result) ← samplePhase F coord n precision g; Ret (self1, g1, result)).
Proof.
  intros Hgen. unfold generateSpawnPositions. rewrite Hgen, bind_Ret.
  apply generateOccupancyMap_Ret in Hgen as ->. done.
Qed.

Lemma zip_with_replicate_mask {A} (p : A → bool) (row : list A) (x y : Q) n :
  n = length row →
  zip_with (λ (q : Q) (b : bool), if b then y else q) (replicate n x) (map p row) =
  map (λ v, if p v then y else x) row.
Proof.
  intros ->. induction row as [|v row IH]; simpl; [done|]. by rewrite IH.
Qed.

Lemma mask_zeros_like (F : np.ndarray Z) :
  np.rect F →
  np.mask_assign (np.zeros_like F) (np.eq F (-1)) 1%Q =
  map (map (λ v, if v =? -1 then 1%Q else 0%Q)) F.
Proof.
  intros Hr. unfold np.mask_assign, np.zeros_like, np.eq. unfold np.rect in Hr.
  generalize dependent (np.shape1 F). intros w Hr.
  induction Hr as [|row F Hrow _ IH]; simpl; [done|]. f_equal; [|done].
  apply zip_with_replicate_mask. lia.
Qed.

Lemma generateOccupancyMap_rect self T z precision occ cm self1 F coord :
  physicWorld self z precision = (occ, cm) → np.rect occ →
  generateOccupancyMap self T z precision = Ret (self1, (F, coord)) →
  np.rect F ∧ coord = cm.
Proof.
  intros Hphys Hr Hgen. destruct (decide (np.size occ = 0%nat)) as [Hz|Hnz].
  - exfalso. unfold generateOccupancyMap in Hgen. rewrite Hphys in Hgen.
    destruct (extractAllRegions_labelled occ Hr) as (L & R & HL & _ & Hsz & _).
    rewrite HL, bind_Ret in Hgen. unfold np.max in Hgen.
    unfold np.size in Hsz, Hz. destruct (concat L); [done|]. simpl in Hsz. lia.
  - destruct (generateOccupancyMap_closed self T z precision occ cm Hphys Hr Hnz)
      as (L & R & nb & _ & Hlab & _ & _ & Hgen').
    rewrite Hgen' in Hgen. injection Hgen as <- <- <-.
    split; [|done]. apply rect_map, (lb_rect _ _ Hlab).
Qed.

Lemma samplePhase_Ret F coord n precision g g1 occMap coord' positions :
  samplePhase F coord n precision g = Ret (g1, (occMap, coord', positions)) →
  occMap = np.mask_assign (np.zeros_like F) (np.eq F (-1)) 1%Q ∧ coord' = coord.
Proof.
  unfold samplePhase. destruct (np.max F) as [nb| |]; [|done..]. rewrite bind_Ret.
  destruct (drawPositions _ _ _ _ _ _) as [[ps g']| |]; [|done..]. rewrite bind_Ret.
  by intros [= <- <- <- <-].
Qed.

(** C10. When a call of [generateSpawnPositions] (on a rectangular grid)
    returns, the first component of the result has, cell by cell, the value
    1.0 where the filtered label map holds OCCUPIED_MARK and 0.0 where it
    holds a region label; it has the cells of the label map, and holds no
    other value than these two: the region labels are not in it. *)
Theorem generateSpawnPositions_occupancy self n T z precision g occ cm
    self' g' occMap coord positions :
  physicWorld self z precision = (occ, cm) → np.rect occ →
  generateSpawnPositions self n T z precision g = Ret (self', g', (occMap, coord, positions)) →
  ∃ F, generateOccupancyMap self T z precision = Ret (self', (F, coord)) ∧
       labeledNavMap self' = Some F ∧
       occMap = map (map (λ v, if v =? OCCUPIED_MARK then 1%Q else 0%Q)) F ∧
       (∀ c, np.at_ occMap c =
             (λ v, if v =? OCCUPIED_MARK then 1%Q else 0%Q) <$> np.at_ F c) ∧
       Forall (Forall (λ x, x = 0%Q ∨ x = 1%Q)) occMap.
Proof.
  intros Hphys Hr Hret. unfold generateSpawnPositions in Hret.
  destruct (generateOccupancyMap self T z precision) as [[self1 [F cmap]]| |] eqn:Hgen;
    [|done..].
  rewrite bind_Ret in Hret. pose proof (generateOccupancyMap_Ret _ _ _ _ _ _ _ Hgen) as ->.
  cbn [labeledNavMap occupancyMapCoord attr] in Hret. rewrite !bind_Ret in Hret.
  destruct (samplePhase F cmap n precision g) as [[g1 [[om cm'] ps]]| |] eqn:Hs; [|done..].
  rewrite bind_Ret in Hret. injection Hret as <- <- <- <- <-.
  apply samplePhase_Ret in Hs as [-> ->].
  destruct (generateOccupancyMap_rect _ _ _ _ _ _ _ _ _ Hphys Hr Hgen) as [HrF _].
  exists F. rewrite (mask_zeros_like F HrF).
  split_and!; [done | done | done | apply at_map |].
  apply Forall_cells. intros c x. rewrite at_map.
  destruct (np.at_ F c) as [v|]; [|done]. simpl. intros [= <-].
  destruct (v =? _); auto.
Qed.

Lemma generateSpawnPositions_occupancy_witness :
  physicWorld exampleEnv 1 1 = (exampleGrid, exampleCoords) ∧ np.rect exampleGrid ∧
  ∃ self' g' occMap coord positions,
    generateSpawnPositions exampleEnv 2 5 1 1
      (mkRandomState (λ _, 0%Q) (λ k, Z.of_nat k) 0 0)
      = Ret (self', g', (occMap, coord, positions)) ∧
    ∃ F, generateOccupancyMap exampleEnv 5 1 1 = Ret (self', (F, coord)) ∧
       labeledNavMap self' = Some F ∧
       occMap = map (map (λ v, if v =? OCCUPIED_MARK then 1%Q else 0%Q)) F ∧
       (∀ c, np.at_ occMap c =
             (λ v, if v =? OCCUPIED_MARK then 1%Q else 0%Q) <$> np.at_ F c) ∧
       Forall (Forall (λ x, x = 0%Q ∨ x = 1%Q)) occMap.
Proof.
  split; [reflexivity|]. split; [exact exampleGrid_rect|].
  eexists _, _, _, _, _. split; [vm_compute; reflexivity|].
  eapply (generateSpawnPositions_occupancy exampleEnv 2 5 1 1
            (mkRandomState (λ _, 0%Q) (λ k, Z.of_nat k) 0 0) exampleGrid exampleCoords);
    [reflexivity | exact exampleGrid_rect | vm_compute; reflexivity].
Defined.

(** ** The draws *)

Lemma length_cumsum_from acc l : length (cumsum_from acc l) = length l.
Proof. revert acc. induction l as [|x l IH]; intros acc; simpl; [done|]. by rewrite IH. Qed.

Lemma length_cumsum l : length (cumsum l) = length l.
Proof. destruct l; simpl; [done|]. by rewrite length_cumsum_from. Qed.

Lemma length_cumulativeShares labeled cellArea nb :
  length (cumulativeShares (regionAreasOf labeled cellArea nb)) = Z.to_nat nb.
Proof.
  unfold cumulativeShares, regionAreasOf. by rewrite length_cumsum, !length_map, length_seqZ.
Qed.

Lemma selectRegion_short s g : (length s ≤ 1)%nat → selectRegion s g = Ret (1, g).
Proof.
  intros Hs. unfold selectRegion.
  assert ((1 <? Z.of_nat (length s)) = false) as -> by lia. done.
Qed.

Lemma cells_nonempty {A} (a : np.ndarray A) c x : np.at_ a c = Some x → np.size a ≠ 0%nat.
Proof.
  intros Hc. assert (x ∈ concat a) as Hin by (apply elem_of_concat_cells; eauto).
  unfold np.size. destruct (concat a); [by apply elem_of_nil in Hin | done].
Qed.

Lemma drawPosition_single F (coord : CoordMap) s g :
  (length s ≤ 1)%nat → (∃ c, np.at_ F c = Some 1) →
  (∀ c, is_Some (np.at_ F c) → is_Some (np.at_ coord c)) →
  ∃ xy c, drawPosition F coord s g = Ret (xy, afterInts g 1) ∧
          np.at_ F c = Some 1 ∧ np.at_ coord c = Some xy.
Proof.
  intros Hs [c0 Hc0] Hcov. unfold drawPosition.
  rewrite selectRegion_short, bind_Ret by done. cbv beta iota.
  set (cells := np.argwhere (np.eq F 1)).
  assert (0 < Z.of_nat (length cells)) as Hlen.
  { assert (c0 ∈ cells) as Hin by (by apply elem_of_argwhere_eq).
    destruct cells; [by apply elem_of_nil in Hin | simpl; lia]. }
  unfold randint. assert ((0 <? Z.of_nat (length cells)) = true) as -> by lia.
  rewrite bind_Ret. cbv beta iota.
  set (r := 0 + intTape g (intPos g) `mod` (Z.of_nat (length cells) - 0)).
  assert (0 ≤ r < Z.of_nat (length cells)) as Hr.
  { unfold r. rewrite Z.sub_0_r.
    pose proof (Z.mod_pos_bound (intTape g (intPos g)) (Z.of_nat (length cells)) Hlen). lia. }
  destruct (_ !! Z.to_nat r) as [[i j]|] eqn:Hij;
    [|exfalso; apply lookup_ge_None in Hij; unfold cells in *; lia].
  assert (np.at_ F (i, j) = Some 1) as HF.
  { apply elem_of_argwhere_eq. apply list_elem_of_lookup. eauto. }
  destruct (Hcov (i, j)) as [xy Hxy]; [eauto|].
  exists xy, (i, j). split_and!; [|done..].
  unfold np.at_ in Hxy. simpl in Hxy. rewrite Hxy.
  unfold afterInts. do 3 f_equal. lia.
Qed.

Lemma afterInts_afterInts g j k : afterInts (afterInts g j) k = afterInts g (j + k).
Proof. unfold afterInts. simpl. f_equal. lia. Qed.

Lemma drawPositions_single F (coord : CoordMap) s n acc g :
  (length s ≤ 1)%nat → (∃ c, np.at_ F c = Some 1) →
  (∀ c, is_Some (np.at_ F c) → is_Some (np.at_ coord c)) →
  ∃ ps, drawPositions n F coord s acc g = Ret (acc ++ ps, afterInts g n) ∧
        length ps = n ∧
        Forall (λ xy, ∃ c, np.at_ F c = Some 1 ∧ np.at_ coord c = Some xy) ps.
Proof.
  intros Hs Hone Hcov. revert acc g. induction n as [|n IH]; intros acc g.
  - exists []. rewrite app_nil_r. split; [|done]. simpl. unfold afterInts.
    destruct g; simpl. do 2 f_equal. f_equal. lia.
  - cbn [drawPositions].
    destruct (drawPosition_single F coord s g Hs Hone Hcov) as (xy & c & -> & HF & Hxy).
    rewrite bind_Ret. cbv beta iota.
    destruct (IH (acc ++ [xy]) (afterInts g 1)) as (ps & -> & Hlen & Hall).
    exists (xy :: ps). rewrite afterInts_afterInts, <- app_assoc. simpl.
    split_and!; [done | lia |]. constructor; eauto.
Qed.

(** C8. When exactly one region survives the filter, every call of
    [generateSpawnPositions] (with a coordinate map that covers the grid)
    returns [max n 0] positions, each the coordinate of a cell that carries
    the label 1, whatever the random source holds; the tape of [random] is
    not read, only the one of [randint], once per position. *)
Theorem generateSpawnPositions_single_region self n T z precision g self1 F coord :
  generateOccupancyMap self T z precision = Ret (self1, (F, coord)) →
  (∀ c v, np.at_ F c = Some v → v = OCCUPIED_MARK ∨ v = 1) →
  (∃ c, np.at_ F c = Some 1) →
  (∀ c, is_Some (np.at_ F c) → is_Some (np.at_ coord c)) →
  ∃ g' occMap positions,
    generateSpawnPositions self n T z precision g =
      Ret (self1, g', (occMap, coord, positions)) ∧
    length positions = Z.to_nat n ∧
    Forall (λ xy, ∃ c, np.at_ F c = Some 1 ∧ np.at_ coord c = Some xy) positions ∧
    floatPos g' = floatPos g ∧ floatTape g' = floatTape g ∧
    intPos g' = (intPos g + Z.to_nat n)%nat.
Proof.
  intros Hgen Hvals [c1 Hc1] Hcov.
  rewrite (generateSpawnPositions_unfold _ _ _ _ _ _ _ _ _ Hgen). unfold samplePhase.
  destruct (np_max_is_Ret F) as [nb Hnb]; [by eapply cells_nonempty|].
  rewrite Hnb, bind_Ret.
  assert (nb = 1) as ->.
  { apply np_max_Ret in Hnb as [Hle [c Hc]]. apply Hle in Hc1.
    destruct (Hvals c nb Hc) as [->| ->]; [unfold OCCUPIED_MARK in *; lia | done]. }
  destruct (drawPositions_single F coord
              (cumulativeShares (regionAreasOf F (precision ^ 2) 1)) (Z.to_nat n) [] g)
    as (ps & -> & Hlen & Hall); [by rewrite length_cumulativeShares | eauto | done |].
  rewrite !bind_Ret. cbv beta iota. rewrite ?bind_Ret.
  eexists _, _, _. split; [reflexivity|]. simpl. done.
Qed.

Lemma generateSpawnPositions_single_region_witness :
  ∃ self1 F,
    generateOccupancyMap exampleEnv 5 1 1 = Ret (self1, (F, exampleCoords)) ∧
    (∀ c v, np.at_ F c = Some v → v = OCCUPIED_MARK ∨ v = 1) ∧
    (∃ c, np.at_ F c = Some 1) ∧
    (∀ c, is_Some (np.at_ F c) → is_Some (np.at_ exampleCoords c)) ∧
    ∃ g' occMap positions,
      generateSpawnPositions exampleEnv 3 5 1 1 exampleRandom =
        Ret (self1, g', (occMap, exampleCoords, positions)) ∧
      length positions = Z.to_nat 3 ∧
      Forall (λ xy, ∃ c, np.at_ F c = Some 1 ∧ np.at_ exampleCoords c = Some xy)
             positions ∧
      floatPos g' = floatPos exampleRandom ∧ floatTape g' = floatTape exampleRandom ∧
      intPos g' = (intPos exampleRandom + Z.to_nat 3)%nat.
Proof.
  assert (generateOccupancyMap exampleEnv 5 1 1 =
          Ret (mkEnv (physicWorld exampleEnv)
                 (Some [[-1; -1; -1; 1; 1]; [-1; -1; -1; 1; 1]; [-1; -1; -1; -1; 1];
                        [-1; -1; 1; 1; 1]]) (Some exampleCoords),
               ([[-1; -1; -1; 1; 1]; [-1; -1; -1; 1; 1]; [-1; -1; -1; -1; 1];
                 [-1; -1; 1; 1; 1]], exampleCoords))) as Hgen by (vm_compute; reflexivity).
  assert (∀ c v, np.at_ [[-1; -1; -1; 1; 1]; [-1; -1; -1; 1; 1]; [-1; -1; -1; -1; 1];
                         [-1; -1; 1; 1; 1]] c = Some v → v = OCCUPIED_MARK ∨ v = 1) as Hvals.
  { apply Forall_cells. apply (bool_decide_unpack _). by vm_compute. }
  assert (∃ c, np.at_ [[-1; -1; -1; 1; 1]; [-1; -1; -1; 1; 1]; [-1; -1; -1; -1; 1];
                       [-1; -1; 1; 1; 1]] c = Some 1) as Hone.
  { exists (0, 3). reflexivity. }
  assert (∀ c, is_Some (np.at_ [[-1; -1; -1; 1; 1]; [-1; -1; -1; 1; 1]; [-1; -1; -1; -1; 1];
                                [-1; -1; 1; 1; 1]] c) →
               is_Some (np.at_ exampleCoords c)) as Hcov.
  { intros c [v Hv]. apply (getitem_inb _ _ _ _) in Hv as [H1 H2];
      [|unfold np.rect; repeat constructor].
    apply getitem_is_Some; [unfold np.rect; vm_compute; repeat constructor | done | done]. }
  eexists _, _. split; [exact Hgen|]. split; [exact Hvals|]. split; [exact Hone|].
  split; [exact Hcov|].
  exact (generateSpawnPositions_single_region exampleEnv 3 5 1 1 exampleRandom _ _ _
           Hgen Hvals Hone Hcov).
Defined.

(** ** The exceptions the methods can raise *)

Lemma raisesOnly_bind {A B} names (m : outcome A) (k : A → outcome B) :
  raisesOnly names m → (∀ a, raisesOnly names (k a)) → raisesOnly names (m ≫= k).
Proof.
  intros Hm Hk cls. destruct m as [a|c|]; [apply Hk | | done].
  intros [= ->]. by apply Hm.
Qed.

Lemma raisesOnly_Ret {A} names (a : A) : raisesOnly names (Ret a).
Proof. by intros cls. Qed.

Lemma raisesOnly_Raise {A} names cls : cls ∈ names → raisesOnly names (@Raise A cls).
Proof. by intros Hin cls' [= <-]. Qed.

Lemma grassfire_raisesOnly fuel G heap visited cur :
  raisesOnly pyErrors (grassfire fuel G heap visited cur).
Proof.
  revert G heap visited. induction fuel as [|fuel IH]; intros G heap visited; [done|].
  destruct heap as [|[i j] heap]; simpl; [done | apply IH].
Qed.

Lemma labelLoop_raisesOnly fuel G cur : raisesOnly pyErrors (labelLoop fuel G cur).
Proof.
  revert G cur. induction fuel as [|fuel IH]; intros G cur; [done|].
  cbn [labelLoop]. destruct (0 <? _); [|done].
  destruct (np.argwhere _) as [|s rest].
  - apply raisesOnly_Raise. set_solver.
  - apply raisesOnly_bind; [apply grassfire_raisesOnly | intros; apply IH].
Qed.

Lemma extractAllRegions_raisesOnly occ : raisesOnly pyErrors (extractAllRegions occ).
Proof.
  unfold extractAllRegions. apply raisesOnly_bind; [apply labelLoop_raisesOnly|].
  intros [G cur]. destruct (np.all _); [done|]. apply raisesOnly_Raise. set_solver.
Qed.

Lemma np_max_raisesOnly a : raisesOnly pyErrors (np.max a).
Proof.
  unfold np.max. destruct (concat a); [|done]. apply raisesOnly_Raise. set_solver.
Qed.

Lemma generateOccupancyMap_raisesOnly self T z precision :
  raisesOnly pyErrors (generateOccupancyMap self T z precision).
Proof.
  unfold generateOccupancyMap. destruct (physicWorld self z precision) as [occ cm].
  apply raisesOnly_bind; [apply extractAllRegions_raisesOnly|]. intros L.
  apply raisesOnly_bind; [apply np_max_raisesOnly|]. intros nb.
  destruct (filterRegions _ _ nb L) as [[F cv] areas].
  destruct (np.all _); [done|]. apply raisesOnly_Raise. set_solver.
Qed.

Lemma drawPosition_raisesOnly F coord s g : raisesOnly pyErrors (drawPosition F coord s g).
Proof.
  unfold drawPosition. apply raisesOnly_bind.
  - unfold selectRegion. destruct (1 <? _); [|done]. destruct (random g) as [r g1].
    destruct (last _); [done|]. apply raisesOnly_Raise. set_solver.
  - intros [sel g1]. apply raisesOnly_bind.
    + unfold randint. destruct (0 <? _); [done|]. apply raisesOnly_Raise. set_solver.
    + intros [r g2]. destruct (_ !! _) as [[i j]|]; [|apply raisesOnly_Raise; set_solver].
      destruct (np.getitem coord i j); [done|]. apply raisesOnly_Raise. set_solver.
Qed.

Lemma drawPositions_raisesOnly n F coord s acc g :
  raisesOnly pyErrors (drawPositions n F coord s acc g).
Proof.
  revert acc g. induction n as [|n IH]; intros acc g; [done|].
  cbn [drawPositions]. apply raisesOnly_bind; [apply drawPosition_raisesOnly|].
  intros [xy g1]. apply IH.
Qed.

Lemma generateSpawnPositions_raisesOnly self n T z precision g :
  raisesOnly pyErrors (generateSpawnPositions self n T z precision g).
Proof.
  unfold generateSpawnPositions.
  apply raisesOnly_bind; [apply generateOccupancyMap_raisesOnly|]. intros [self1 [F cm]].
  apply raisesOnly_bind.
  { destruct (labeledNavMap self1); [done|]. apply raisesOnly_Raise. set_solver. }
  intros labeled. apply raisesOnly_bind.
  { destruct (occupancyMapCoord self1); [done|]. apply raisesOnly_Raise. set_solver. }
  intros coord. apply raisesOnly_bind; [|by intros [g1 result]].
  unfold samplePhase. apply raisesOnly_bind; [apply np_max_raisesOnly|]. intros nb.
  apply raisesOnly_bind; [apply drawPositions_raisesOnly|]. by intros [ps g1].
Qed.

(** C1, as the code has it.  The code defines no error classes of its own
    and tests neither the number of regions nor the total area.  When no
    region survives the filter and a position is requested, the call fails,
    with the [ValueError] of [np.random.randint] over an empty range of
    cells, and returns nothing; and no call whatever raises an exception
    named NoNavigableSpaceError or InvalidAreaError. *)
Theorem generateSpawnPositions_no_region :
  (∀ self n T z precision g self1 F coord,
     generateOccupancyMap self T z precision = Ret (self1, (F, coord)) →
     (∀ c v, np.at_ F c = Some v → v ≤ 0) → 0 < n →
     generateSpawnPositions self n T z precision g = Raise "ValueError") ∧
  (∀ self n T z precision g cls,
     generateSpawnPositions self n T z precision g = Raise cls →
     cls ≠ "NoNavigableSpaceError" ∧ cls ≠ "InvalidAreaError").
Proof.
  split.
  - intros self n T z precision g self1 F coord Hgen Hnone Hn.
    rewrite (generateSpawnPositions_unfold _ _ _ _ _ _ _ _ _ Hgen). unfold samplePhase.
    destruct (np.max F) as [nb|cls|] eqn:Hmax.
    + rewrite bind_Ret.
      assert (nb ≤ 0) as Hnb.
      { apply np_max_Ret in Hmax as [_ [c Hc]]. by apply (Hnone c). }
      unfold regionAreasOf. rewrite seqZ_nil by done. cbn [map cumulativeShares cumsum].
      destruct (Z.to_nat n) as [|k] eqn:Hk; [lia|]. cbn [drawPositions].
      unfold drawPosition. rewrite selectRegion_short, bind_Ret by (simpl; lia).
      cbv beta iota.
      assert (np.argwhere (np.eq F 1) = []) as ->.
      { destruct (np.argwhere (np.eq F 1)) as [|c rest] eqn:Harg; [done|]. exfalso.
        assert (np.at_ F c = Some 1) as Hc.
        { apply elem_of_argwhere_eq. rewrite Harg. by left. }
        apply Hnone in Hc. lia. }
      done.
    + apply np_max_Raise in Hmax as [-> _]. done.
    + unfold np.max in Hmax. by destruct (concat F).
  - intros self n T z precision g cls Hraise.
    apply generateSpawnPositions_raisesOnly in Hraise. unfold pyErrors in Hraise.
    split; intros ->;
      repeat (apply elem_of_cons in Hraise as [Hraise|Hraise]; [discriminate|]);
      by apply elem_of_nil in Hraise.
Qed.

Lemma generateSpawnPositions_no_region_witness :
  generateOccupancyMap exampleEnv 20 1 1 =
    Ret (mkEnv (physicWorld exampleEnv) (Some exampleEmptied) (Some exampleCoords),
         (exampleEmptied, exampleCoords)) ∧
  (∀ c v, np.at_ exampleEmptied c = Some v → v ≤ 0) ∧ 0 < 1 ∧
  generateSpawnPositions exampleEnv 1 20 1 1 exampleRandom = Raise "ValueError".
Proof.
  assert (generateOccupancyMap exampleEnv 20 1 1 =
    Ret (mkEnv (physicWorld exampleEnv) (Some exampleEmptied) (Some exampleCoords),
         (exampleEmptied, exampleCoords))) as Hgen by (vm_compute; reflexivity).
  assert (∀ c v, np.at_ exampleEmptied c = Some v → v ≤ 0) as Hnone.
  { apply Forall_cells. apply (bool_decide_unpack _). by vm_compute. }
  split; [exact Hgen|]. split; [exact Hnone|]. split; [lia|].
  exact (proj1 generateSpawnPositions_no_region exampleEnv 1 20%Q 1%Q 1%Q exampleRandom _ _ _
           Hgen Hnone ltac:(lia)).
Defined.

(** C1 as stated fails.  With the threshold 20 no region of the example
    grid survives, and a request for one position fails with ValueError,
    not NoNavigableSpaceError.  The total area is then zero, and a request
    for no position returns, with no InvalidAreaError.  So does, with
    precision 0 and threshold 0, a request for two positions on the grid
    [[0, 1]], whose one region survives with area 0. *)
Lemma generateSpawnPositions_typed_errors_counterexample :
  (generateOccupancyMap exampleEnv 20 1 1 =
     Ret (mkEnv (physicWorld exampleEnv) (Some exampleEmptied) (Some exampleCoords),
          (exampleEmptied, exampleCoords)) ∧
   generateSpawnPositions exampleEnv 1 20 1 1 exampleRandom = Raise "ValueError" ∧
   generateSpawnPositions exampleEnv 1 20 1 1 exampleRandom
     ≠ Raise "NoNavigableSpaceError") ∧
  (fsum (regionAreasOf exampleEmptied (1 ^ 2) (-1)) = 0%Q ∧
   generateSpawnPositions exampleEnv 0 20 1 1 exampleRandom =
     Ret (mkEnv (physicWorld exampleEnv) (Some exampleEmptied) (Some exampleCoords),
          exampleRandom,
          (map (map (λ _, 1%Q)) exampleEmptied, exampleCoords, [])) ∧
   generateSpawnPositions exampleEnv 0 20 1 1 exampleRandom ≠ Raise "InvalidAreaError") ∧
  (fsum (regionAreasOf [[1; -1]] (0 ^ 2) 1) = 0%Q ∧
   generateSpawnPositions narrowEnv 2 0 1 0 exampleRandom =
     Ret (mkEnv (physicWorld narrowEnv) (Some [[1; -1]]) (Some [[(0%Q, 0%Q); (0%Q, 1%Q)]]),
          mkRandomState (floatTape exampleRandom) (intTape exampleRandom) 0 2,
          ([[0%Q; 1%Q]], [[(0%Q, 0%Q); (0%Q, 1%Q)]], [(0%Q, 0%Q); (0%Q, 0%Q)])) ∧
   generateSpawnPositions narrowEnv 2 0 1 0 exampleRandom ≠ Raise "InvalidAreaError").
Proof.
  assert (generateSpawnPositions exampleEnv 1 20 1 1 exampleRandom = Raise "ValueError")
    as H1 by (vm_compute; reflexivity).
  assert (generateSpawnPositions exampleEnv 0 20 1 1 exampleRandom =
     Ret (mkEnv (physicWorld exampleEnv) (Some exampleEmptied) (Some exampleCoords),
          exampleRandom,
          (map (map (λ _, 1%Q)) exampleEmptied, exampleCoords, [])))
    as H0 by (vm_compute; reflexivity).
  assert (generateSpawnPositions narrowEnv 2 0 1 0 exampleRandom =
     Ret (mkEnv (physicWorld narrowEnv) (Some [[1; -1]]) (Some [[(0%Q, 0%Q); (0%Q, 1%Q)]]),
          mkRandomState (floatTape exampleRandom) (intTape exampleRandom) 0 2,
          ([[0%Q; 1%Q]], [[(0%Q, 0%Q); (0%Q, 1%Q)]], [(0%Q, 0%Q); (0%Q, 0%Q)])))
    as H2 by (vm_compute; reflexivity).
  split; [|split]; split_and!;
    [by vm_compute | exact H1 | by rewrite H1 | by vm_compute | exact H0 | by rewrite H0
    | by vm_compute | exact H2 | by rewrite H2].
Qed.

(** ** The cumulative shares *)














(** ** The last index below the draw *)

Lemma last_argwhere1_from k0 m :
  match last (np.argwhere1_from k0 m) with
  | Some k => k0 ≤ k ∧ m !! Z.to_nat (k - k0) = Some true ∧
              ∀ j, (Z.to_nat (k - k0) < j)%nat → m !! j ≠ Some true
  | None => ∀ j, m !! j ≠ Some true
  end.
Proof.
  revert k0. induction m as [|b m IH]; intros k0; [done|].
  cbn [np.argwhere1_from]. rewrite last_app. specialize (IH (k0 + 1)).
  destruct (last (np.argwhere1_from (k0 + 1) m)) as [k|].
  - destruct IH as (Hk & Hm & Hlast). split; [lia|].
    replace (Z.to_nat (k - k0)) with (S (Z.to_nat (k - (k0 + 1)))) by lia.
    split; [done|]. intros [|j] Hj; [lia|]. simpl. apply Hlast. lia.
  - destruct b; simpl.
    + rewrite Z.sub_diag. split; [lia|]. split; [done|].
      intros [|j] Hj; [lia|]. apply IH.
    + intros [|j]; [done | apply IH].
Qed.


Lemma Qsquare_nonneg (q : Q) : (0 <= q ^ 2)%Q.
Proof.
  change (q ^ 2)%Q with (q * q)%Q. destruct q as [n d]. unfold Qle, Qmult. simpl. nia.
Qed.






(** ** The two scenarios of the specification *)

Example openGrid_one_region :
  extractAllRegions openGrid = Ret (replicate 5 (replicate 5 1)).
Proof. by vm_compute. Qed.

Example openGrid_filtered_out :
  generateOccupancyMap openEnv 30 1 1 =
  Ret (mkEnv (physicWorld openEnv) (Some (replicate 5 (replicate 5 (-1)))) (Some squareCoords),
       (replicate 5 (replicate 5 (-1)), squareCoords)).
Proof. by vm_compute. Qed.

Example openGrid_no_spawn :
  generateSpawnPositions openEnv 1 30 1 1 exampleRandom = Raise "ValueError".
Proof. by vm_compute. Qed.

Example splitGrid_two_regions :
  extractAllRegions splitGrid = Ret (replicate 5 [1; 1; -1; 2; 2]) ∧
  regionAreasOf (replicate 5 [1; 1; -1; 2; 2]) (1 ^ 2) 2 = [10%Q; 10%Q].
Proof. split; by vm_compute. Qed.

(** * Further properties of the three functions *)

(** ** Shapes *)

Lemma grassfire_shape fuel G heap visited cur G' :
  grassfire fuel G heap visited cur = Ret G' →
  np.shape0 G' = np.shape0 G ∧ np.shape1 G' = np.shape1 G.
Proof.
  revert G heap visited. induction fuel as [|fuel IH]; intros G heap visited; [done|].
  destruct heap as [|[i j] heap]; simpl.
  - by intros [= <-].
  - intros H. apply IH in H as [-> ->]. by rewrite shape0_setitem, shape1_setitem.
Qed.

Lemma labelLoop_shape fuel G cur G' R :
  labelLoop fuel G cur = Ret (G', R) →
  np.shape0 G' = np.shape0 G ∧ np.shape1 G' = np.shape1 G.
Proof.
  revert G cur. induction fuel as [|fuel IH]; intros G cur; [done|].
  cbn [labelLoop]. destruct (0 <? _); [|by intros [= <- <-]].
  destruct (np.argwhere _) as [|s rest]; [done|].
  destruct (grassfire _ _ _ _ cur) as [G1| |] eqn:Hg; [|done..].
  rewrite bind_Ret. intros H. apply IH in H as [-> ->]. by apply grassfire_shape in Hg.
Qed.

Lemma extractAllRegions_shape occ L :
  extractAllRegions occ = Ret L →
  np.shape0 L = np.shape0 occ ∧ np.shape1 L = np.shape1 occ.
Proof.
  unfold extractAllRegions.
  destruct (labelLoop _ _ 1) as [[G R]| |] eqn:Hl; [|done..]. rewrite bind_Ret.
  destruct (np.all _); [|done]. intros [= <-].
  apply labelLoop_shape in Hl as [-> ->]. rewrite markOccupied_map.
  by rewrite shape0_map, shape1_map.
Qed.

(** Two rectangular arrays of one shape that agree cell by cell are equal. *)
Lemma ndarray_ext {A} (a b : np.ndarray A) :
  np.rect a → np.rect b → np.shape0 a = np.shape0 b → np.shape1 a = np.shape1 b →
  (∀ c, np.at_ a c = np.at_ b c) → a = b.
Proof.
  intros Ha Hb H0 H1 Hat. unfold np.shape0 in H0. apply list_eq. intros i.
  destruct (a !! i) as [ra|] eqn:Hra.
  - destruct (lookup_lt_is_Some_2 b i) as [rb Hrb].
    { apply lookup_lt_Some in Hra. lia. }
    rewrite Hrb. f_equal.
    assert (ra ∈ a) as Hina by (apply list_elem_of_lookup; eauto).
    assert (rb ∈ b) as Hinb by (apply list_elem_of_lookup; eauto).
    pose proof (rect_row _ _ Ha Hina). pose proof (rect_row _ _ Hb Hinb).
    apply list_eq. intros j. specialize (Hat (Z.of_nat i, Z.of_nat j)).
    unfold np.at_, np.getitem in Hat. simpl in Hat.
    assert ((0 <=? Z.of_nat i) && (0 <=? Z.of_nat j) = true) as Hb'.
    { apply andb_true_iff. split; apply Z.leb_le; lia. }
    rewrite Hb', !Nat2Z.id, Hra, Hrb in Hat. done.
  - symmetry. apply lookup_ge_None. apply lookup_ge_None in Hra. lia.
Qed.

(** ** A second pass over a label grid *)

Lemma extractAllRegions_no_free a :
  (∀ c, np.at_ a c ≠ Some 0) →
  extractAllRegions a = Ret (map (map (λ _, OCCUPIED_MARK)) a).
Proof.
  intros Hnz. unfold extractAllRegions.
  assert (markOccupied a = map (map (λ _, OCCUPIED_MARK)) a) as ->.
  { rewrite markOccupied_map. apply map_map_ext_in. intros c x Hx.
    destruct (Z.eqb_spec x 0) as [->|]; [by apply Hnz in Hx | done]. }
  set (G := map (map (λ _, OCCUPIED_MARK)) a).
  assert (∀ c, np.at_ G c ≠ Some 0) as HG.
  { intros c. unfold G. rewrite at_map. by destruct (np.at_ a c). }
  cbn [labelLoop]. rewrite count_nonzero_argwhere. fold (zeros G).
  rewrite (proj2 (zeros_0_cells G) HG). change (0 <? Z.of_nat 0) with false.
  cbv iota. rewrite bind_Ret. by rewrite (proj2 (all_ne_cells G 0) HG).
Qed.

(** X1. A second pass of the labelling over a label grid loses the regions:
    [extractAllRegions] takes every non-zero cell for occupied, so on the
    grid it returned for a (rectangular) occupancy grid it returns
    OCCUPIED_MARK in every cell. *)
Theorem extractAllRegions_twice occ :
  np.rect occ →
  ∃ L, extractAllRegions occ = Ret L ∧
       extractAllRegions L = Ret (map (map (λ _, OCCUPIED_MARK)) L).
Proof.
  intros Hr. destruct (extractAllRegions_spec occ Hr) as (L & R & HL & _ & _ & Hnz).
  exists L. split; [done|]. by apply extractAllRegions_no_free.
Qed.

Lemma extractAllRegions_twice_witness :
  np.rect exampleGrid ∧
  ∃ L, extractAllRegions exampleGrid = Ret L ∧
       extractAllRegions L = Ret (map (map (λ _, OCCUPIED_MARK)) L).
Proof.
  split; [exact exampleGrid_rect|].
  exact (extractAllRegions_twice exampleGrid exampleGrid_rect).
Defined.

(** ** A grid without occupied cells *)

Lemma at_is_Some_inb {A} (a : np.ndarray A) (c : Cell) :
  np.rect a →
  is_Some (np.at_ a c) ↔ (0 ≤ c.1 < np.shape0 a ∧ 0 ≤ c.2 < np.shape1 a).
Proof.
  intros Hr. split.
  - intros [x Hx]. by apply (getitem_inb a c.1 c.2 x).
  - intros [H1 H2]. by apply getitem_is_Some.
Qed.

Section open_grid.
Variable occ : np.ndarray Z.
Hypothesis Hrect : np.rect occ.
Hypothesis Hfree : ∀ c v, np.at_ occ c = Some v → v = 0.

Lemma open_isFree c : is_Some (np.at_ occ c) → isFree occ c.
Proof. intros [v Hv]. unfold isFree. by rewrite Hv, (Hfree c v Hv). Qed.

Lemma open_walk_row i (n : nat) :
  is_Some (np.at_ occ (i, Z.of_nat n)) → connected occ (i, 0) (i, Z.of_nat n).
Proof.
  induction n as [|n IH]; intros Hin; [apply rtc_refl|].
  assert (is_Some (np.at_ occ (i, Z.of_nat n))) as Hin'.
  { apply at_is_Some_inb in Hin; [|done]. apply at_is_Some_inb; [done|]. simpl in *. lia. }
  eapply rtc_r; [by apply IH|]. split_and!; [by apply open_isFree..|].
  unfold adjacent. simpl. lia.
Qed.

Lemma open_walk_col j (n : nat) :
  is_Some (np.at_ occ (Z.of_nat n, j)) → connected occ (0, j) (Z.of_nat n, j).
Proof.
  induction n as [|n IH]; intros Hin; [apply rtc_refl|].
  assert (is_Some (np.at_ occ (Z.of_nat n, j))) as Hin'.
  { apply at_is_Some_inb in Hin; [|done]. apply at_is_Some_inb; [done|]. simpl in *. lia. }
  eapply rtc_r; [by apply IH|]. split_and!; [by apply open_isFree..|].
  unfold adjacent. simpl. lia.
Qed.

Lemma open_connected_origin c : is_Some (np.at_ occ c) → connected occ (0, 0) c.
Proof.
  intros Hin. destruct c as [i j].
  pose proof (proj1 (at_is_Some_inb occ (i, j) Hrect) Hin) as [Hi Hj]. simpl in Hi, Hj.
  apply (connected_trans occ (0, 0) (0, j) (i, j)).
  - rewrite <- (Z2Nat.id j) by lia. apply open_walk_row.
    apply at_is_Some_inb; [done|]. simpl. lia.
  - rewrite <- (Z2Nat.id i) by lia. apply open_walk_col.
    rewrite Z2Nat.id by lia. done.
Qed.

Lemma open_connected a b :
  is_Some (np.at_ occ a) → is_Some (np.at_ occ b) → connected occ a b.
Proof.
  intros Ha Hb. eapply connected_trans.
  - apply connected_sym. by apply open_connected_origin.
  - by apply open_connected_origin.
Qed.

End open_grid.

(** X2. A (rectangular, non-empty) grid whose cells are all FREE is one
    region: [extractAllRegions] returns the label 1 in every cell. *)
Theorem extractAllRegions_open_grid occ :
  np.rect occ → np.size occ ≠ 0%nat →
  (∀ c v, np.at_ occ c = Some v → v = 0) →
  extractAllRegions occ = Ret (map (map (λ _, 1)) occ).
Proof.
  intros Hr Hsize Hfree.
  destruct (extractAllRegions_spec occ Hr) as (L & R & HL & HR & HI & Hnz).
  rewrite HL. f_equal.
  pose proof (markOccupied_binary occ) as Hb.
  assert (∀ c, is_Some (np.at_ occ c) → ∃ v, np.at_ L c = Some v ∧ 1 ≤ v < R + 1) as Hlab.
  { intros c [x Hx]. pose proof (Hfree c x Hx) as ->.
    apply markOccupied_free in Hx.
    destruct (li_free _ _ _ HI c Hx) as (v & Hv & [->|?]); [by apply Hnz in Hv | eauto]. }
  assert (∃ c0, is_Some (np.at_ occ c0)) as [c0 Hc0].
  { unfold np.size in Hsize. destruct (concat occ) as [|x l] eqn:Hc; [done|].
    assert (x ∈ concat occ) as Hin by (rewrite Hc; by left).
    apply elem_of_concat_cells in Hin as [c Hcx]. eauto. }
  destruct (Hlab c0 Hc0) as (v0 & _ & Hv0).
  destruct (li_seed _ _ _ HI 1) as (s & Hs & _); [lia|].
  assert (is_Some (np.at_ occ s)) as Hsin.
  { apply markOccupied_dom, (li_dom _ _ _ HI). eauto. }
  apply ndarray_ext.
  - apply (li_rect _ _ _ HI).
  - by apply rect_map.
  - rewrite shape0_map. by apply extractAllRegions_shape in HL as [? _].
  - rewrite shape1_map. by apply extractAllRegions_shape in HL as [_ ?].
  - intros c. rewrite at_map. destruct (np.at_ occ c) as [x|] eqn:Hx; simpl.
    + apply (labelInv_connected _ _ _ s c 1 HI); [|done|lia].
      apply connected_markOccupied. apply open_connected; eauto.
    + destruct (np.at_ L c) as [v|] eqn:Hv; [|done].
      assert (is_Some (np.at_ occ c)) as [? ?]; [|congruence].
      apply markOccupied_dom, (li_dom _ _ _ HI). eauto.
Qed.

Lemma extractAllRegions_open_grid_witness :
  np.rect openGrid ∧ np.size openGrid ≠ 0%nat ∧
  (∀ c v, np.at_ openGrid c = Some v → v = 0) ∧
  extractAllRegions openGrid = Ret (map (map (λ _, 1)) openGrid).
Proof.
  assert (np.rect openGrid) as Hr by (unfold np.rect; vm_compute; repeat constructor).
  assert (np.size openGrid ≠ 0%nat) as Hs by discriminate.
  assert (∀ c v, np.at_ openGrid c = Some v → v = 0) as Hf.
  { apply Forall_cells. apply (bool_decide_unpack _). by vm_compute. }
  split; [exact Hr|]. split; [exact Hs|]. split; [exact Hf|].
  exact (extractAllRegions_open_grid openGrid Hr Hs Hf).
Defined.

(** ** The regions partition the free cells *)

Lemma length_filter_map_true {A} (f : A → bool) (l : list A) :
  length (filter (λ b : bool, b = true) (map f l)) = length (filter (λ x, f x = true) l).
Proof.
  induction l as [|x l IH]; [done|]. cbn [map]. destruct (f x) eqn:E.
  - rewrite !filter_cons_True by done. simpl. by rewrite IH.
  - rewrite !filter_cons_False by congruence. done.
Qed.

Lemma count_nonzero_mask {A} (p : A → bool) (a : np.ndarray A) :
  np.count_nonzero (map (map p) a) =
  Z.of_nat (length (filter (λ x, p x = true) (concat a))).
Proof.
  unfold np.count_nonzero. by rewrite <- concat_map, length_filter_map_true.
Qed.

Lemma length_filter_upto (l : list Z) (n : nat) :
  length (filter (λ x, 1 ≤ x ≤ Z.of_nat (S n)) l) =
  Nat.add (length (filter (λ x, 1 ≤ x ≤ Z.of_nat n) l))
          (length (filter (λ x, x = 1 + Z.of_nat n) l)).
Proof.
  induction l as [|x l IH]; [done|].
  destruct (decide (x = 1 + Z.of_nat n)) as [->|Hne].
  - rewrite (filter_cons_True (λ x, 1 ≤ x ≤ Z.of_nat (S n))) by lia.
    rewrite (filter_cons_False (λ x, 1 ≤ x ≤ Z.of_nat n)) by lia.
    rewrite (filter_cons_True (λ x, x = 1 + Z.of_nat n)) by lia.
    simpl. lia.
  - rewrite (filter_cons_False (λ x, x = 1 + Z.of_nat n)) by lia.
    destruct (decide (1 ≤ x ≤ Z.of_nat n)).
    + rewrite (filter_cons_True (λ x, 1 ≤ x ≤ Z.of_nat (S n))) by lia.
      rewrite (filter_cons_True (λ x, 1 ≤ x ≤ Z.of_nat n)) by lia.
      simpl. lia.
    + rewrite (filter_cons_False (λ x, 1 ≤ x ≤ Z.of_nat (S n))) by lia.
      rewrite (filter_cons_False (λ x, 1 ≤ x ≤ Z.of_nat n)) by lia.
      done.
Qed.

Lemma foldr_add_app (l1 l2 : list Z) :
  foldr Z.add 0 (l1 ++ l2) = foldr Z.add 0 l1 + foldr Z.add 0 l2.
Proof. induction l1 as [|x l1 IH]; simpl; lia. Qed.

Lemma cellCount_filter (L : np.ndarray Z) k :
  cellCount L k = Z.of_nat (length (filter (λ x, x = k) (concat L))).
Proof.
  unfold cellCount, np.eq. rewrite count_nonzero_mask. f_equal. f_equal.
  apply list_filter_iff. intros x. apply Z.eqb_eq.
Qed.

Lemma sum_cellCount (L : np.ndarray Z) (n : nat) :
  foldr Z.add 0 (cellCount L <$> seqZ 1 (Z.of_nat n)) =
  Z.of_nat (length (filter (λ x, 1 ≤ x ≤ Z.of_nat n) (concat L))).
Proof.
  induction n as [|n IH].
  - simpl. symmetry. apply Nat2Z.inj_iff with (m := 0%nat). apply length_zero_iff_nil.
    induction (concat L) as [|x l IHl]; [done|].
    rewrite filter_cons_False by lia. done.
  - rewrite seqZ_snoc, fmap_app, foldr_add_app, IH. simpl.
    rewrite length_filter_upto, cellCount_filter. lia.
Qed.

Lemma sum_cellCount_Z (L : np.ndarray Z) R :
  0 ≤ R →
  foldr Z.add 0 (cellCount L <$> seqZ 1 R) =
  Z.of_nat (length (filter (λ x, 1 ≤ x ≤ R) (concat L))).
Proof.
  intros HR. pose proof (sum_cellCount L (Z.to_nat R)) as H.
  by rewrite Z2Nat.id in H.
Qed.

Lemma sum_ge (f : Z → Z) (n : nat) :
  (∀ k, 1 ≤ k ≤ Z.of_nat n → 1 ≤ f k) →
  Z.of_nat n ≤ foldr Z.add 0 (f <$> seqZ 1 (Z.of_nat n)).
Proof.
  induction n as [|n IH]; intros Hf; [done|].
  rewrite seqZ_snoc, fmap_app, foldr_add_app. simpl.
  specialize (Hf (1 + Z.of_nat n)) as Hlast. specialize (IH ltac:(intros; apply Hf; lia)).
  lia.
Qed.

(** X3. The regions of the labelling partition the FREE cells: for every
    (rectangular) grid the labels are 1..R, no region is empty, and the
    cell counts of the regions add up to the number of FREE cells of the
    input; so there are at most as many regions as FREE cells. *)
Theorem extractAllRegions_partition occ :
  np.rect occ →
  ∃ L R, extractAllRegions occ = Ret L ∧ 0 ≤ R ∧
    (∀ c v, np.at_ L c = Some v → v = OCCUPIED_MARK ∨ 1 ≤ v ≤ R) ∧
    (∀ k, 1 ≤ k ≤ R → 1 ≤ cellCount L k) ∧
    foldr Z.add 0 (cellCount L <$> seqZ 1 R) = np.count_nonzero (np.eq occ 0) ∧
    R ≤ np.count_nonzero (np.eq occ 0).
Proof.
  intros Hr. destruct (extractAllRegions_spec occ Hr) as (L & R & HL & HR & HI & Hnz).
  pose proof (markOccupied_binary occ) as Hb.
  assert (∀ c v, np.at_ L c = Some v → v = -1 ∨ 1 ≤ v ≤ R) as Hvals.
  { intros c v Hv. destruct (labelInv_values _ _ _ _ _ Hb HI Hv) as [?|[->|?]];
      [by left | by apply Hnz in Hv | right; lia]. }
  assert (∀ k, 1 ≤ k ≤ R → 1 ≤ cellCount L k) as Hne.
  { intros k Hk. destruct (labelInv_firstCell _ _ _ k HI) as (s & _ & Hs & _); [lia|].
    unfold cellCount. rewrite count_nonzero_argwhere.
    apply elem_of_argwhere_eq in Hs.
    destruct (np.argwhere (np.eq L k)); [by apply elem_of_nil in Hs | simpl; lia]. }
  assert (foldr Z.add 0 (cellCount L <$> seqZ 1 R) = np.count_nonzero (np.eq occ 0)) as Hsum.
  { rewrite sum_cellCount_Z by done.
    rewrite (list_filter_iff _ (λ x, (1 <=? x) && (x <=? R) = true))
      by (intros x; rewrite andb_true_iff, !Z.leb_le; lia).
    rewrite <- (count_nonzero_mask (λ x, (1 <=? x) && (x <=? R)) L).
    rewrite !count_nonzero_argwhere. f_equal. apply Permutation_length.
    apply NoDup_Permutation; [apply argwhere_NoDup..|]. intros c.
    rewrite elem_of_argwhere, elem_of_argwhere_eq, at_map. split.
    - destruct (np.at_ L c) as [v|] eqn:Hv; [|done]. simpl. intros [= Hpos].
      apply andb_true_iff in Hpos as [Hp1%Z.leb_le Hp2%Z.leb_le].
      destruct (li_dom _ _ _ HI c) as [w Hw]; [eauto|].
      destruct (Hb _ _ Hw) as [->| ->]; [|by apply markOccupied_free].
      apply (li_occ _ _ _ HI) in Hw. assert (v = -1) by congruence. lia.
    - intros Hc%markOccupied_free.
      destruct (li_free _ _ _ HI c Hc) as (v & Hv & [->|?]); [by destruct (Hnz c)|].
      rewrite Hv. simpl. f_equal. apply andb_true_iff. rewrite !Z.leb_le. lia. }
  exists L, R. split_and!; [done..|].
  rewrite <- Hsum. replace R with (Z.of_nat (Z.to_nat R)) at 1 by lia.
  replace R with (Z.of_nat (Z.to_nat R)) at 2 by lia.
  apply sum_ge. intros k Hk. apply Hne. lia.
Qed.

Lemma extractAllRegions_partition_witness :
  np.rect exampleGrid ∧
  ∃ L R, extractAllRegions exampleGrid = Ret L ∧ 0 ≤ R ∧
    (∀ c v, np.at_ L c = Some v → v = OCCUPIED_MARK ∨ 1 ≤ v ≤ R) ∧
    (∀ k, 1 ≤ k ≤ R → 1 ≤ cellCount L k) ∧
    foldr Z.add 0 (cellCount L <$> seqZ 1 R) = np.count_nonzero (np.eq exampleGrid 0) ∧
    R ≤ np.count_nonzero (np.eq exampleGrid 0).
Proof.
  split; [exact exampleGrid_rect|].
  exact (extractAllRegions_partition exampleGrid exampleGrid_rect).
Defined.

(** ** The filter and its threshold *)

(** Labelling and filtering, with what both proofs know of the label grid. *)
Lemma generateOccupancyMap_full self T z precision occ coord :
  physicWorld self z precision = (occ, coord) → np.rect occ → np.size occ ≠ 0%nat →
  ∃ L R,
    extractAllRegions occ = Ret L ∧ labelled L R ∧
    labelInv (markOccupied occ) L (R + 1) ∧ (∀ c, np.at_ L c ≠ Some 0) ∧
    generateOccupancyMap self T z precision =
    Ret (mkEnv (physicWorld self)
               (Some (map (map (rename (precision ^ 2) T L R)) L)) (Some coord),
         (map (map (rename (precision ^ 2) T L R)) L, coord)).
Proof.
  intros Hphys Hr Hsize.
  destruct (extractAllRegions_spec occ Hr) as (L & R & HL & HR & HI & Hnz).
  destruct (extractAllRegions_labelled occ Hr) as (L' & R' & HL' & Hlab & Hsz & _).
  assert (L' = L) as -> by congruence.
  assert (R' = R) as ->.
  { destruct (decide (R' = R)) as [|Hne]; [done|]. exfalso.
    pose proof (markOccupied_binary occ) as Hb. pose proof (lb_R _ _ Hlab).
    destruct (Z.lt_trichotomy R' R) as [Hlt|[?|Hlt]]; [|done|].
    - destruct (labelInv_firstCell _ _ _ R HI) as (s & _ & Hs & _); [lia|].
      destruct (lb_values _ _ Hlab s R Hs); lia.
    - destruct (lb_used _ _ Hlab R') as [c Hc]; [lia|].
      destruct (labelInv_values _ _ _ _ _ Hb HI Hc) as [?|[?|?]]; lia. }
  destruct (np_max_is_Ret L) as [nb Hnb]; [congruence|].
  exists L, R. split_and!; [done..|].
  unfold generateOccupancyMap. rewrite Hphys, HL, bind_Ret, Hnb, bind_Ret.
  rewrite (filterRegions_closed _ _ L R Hlab nb Hnb).
  by rewrite (F_all_ne _ _ L R Hlab).
Qed.

Lemma cellCount_nonneg L r : 0 ≤ cellCount L r.
Proof. unfold cellCount, np.count_nonzero. lia. Qed.

Lemma area_nonneg L r precision : (0 <= inject_Z (cellCount L r) * precision ^ 2)%Q.
Proof.
  apply Qmult_le_0_compat; [|apply Qsquare_nonneg].
  change 0%Q with (inject_Z 0). rewrite <- Zle_Qle. apply cellCount_nonneg.
Qed.

Lemma newId_all_survive cellArea T L r :
  1 ≤ r → (∀ k, 1 ≤ k < r → survives cellArea T L k = true) → newId cellArea T L r = r.
Proof.
  intros Hr. replace r with (1 + Z.of_nat (Z.to_nat (r - 1))) by lia.
  induction (Z.to_nat (r - 1)) as [|n IH]; intros Hall; [done|].
  replace (1 + Z.of_nat (S n)) with (1 + Z.of_nat n + 1) by lia.
  rewrite newId_succ by lia. rewrite IH by (intros; apply Hall; lia).
  rewrite Hall by lia. done.
Qed.

(** X4. A threshold [minRegionArea] of zero or less filters nothing: on a
    (rectangular, non-empty) grid [generateOccupancyMap] returns the label
    grid of [extractAllRegions] as it is. *)
Theorem generateOccupancyMap_no_threshold self T z precision occ coord :
  physicWorld self z precision = (occ, coord) → np.rect occ → np.size occ ≠ 0%nat →
  (T <= 0)%Q →
  ∃ L, extractAllRegions occ = Ret L ∧
       generateOccupancyMap self T z precision =
       Ret (mkEnv (physicWorld self) (Some L) (Some coord), (L, coord)).
Proof.
  intros Hphys Hr Hsize HT.
  destruct (generateOccupancyMap_full self T z precision occ coord Hphys Hr Hsize)
    as (L & R & HL & Hlab & _ & _ & Hgen).
  exists L. split; [done|]. rewrite Hgen.
  assert (∀ k, survives (precision ^ 2) T L k = true) as Hall.
  { intros k. unfold survives. apply negb_true_iff, Qltb_ge.
    pose proof (area_nonneg L k precision). lra. }
  rewrite (map_map_id (rename (precision ^ 2) T L R) L); [done|].
  intros v. unfold rename. destruct ((1 <=? v) && (v <=? R)) eqn:E; [|done].
  rewrite Hall. apply newId_all_survive; [lia | auto].
Qed.

Lemma generateOccupancyMap_no_threshold_witness :
  physicWorld exampleEnv 1 1 = (exampleGrid, exampleCoords) ∧
  np.rect exampleGrid ∧ np.size exampleGrid ≠ 0%nat ∧ (0 <= 0)%Q ∧
  ∃ L, extractAllRegions exampleGrid = Ret L ∧
       generateOccupancyMap exampleEnv 0 1 1 =
       Ret (mkEnv (physicWorld exampleEnv) (Some L) (Some exampleCoords), (L, exampleCoords)).
Proof.
  split; [reflexivity|]. split; [exact exampleGrid_rect|]. split; [exact exampleGrid_size|].
  split; [apply Qle_refl|].
  exact (generateOccupancyMap_no_threshold exampleEnv 0 1 1 exampleGrid exampleCoords
           eq_refl exampleGrid_rect exampleGrid_size (Qle_refl 0)).
Defined.

Lemma rename_mark cellArea T L R v :
  v = -1 ∨ 1 ≤ v ≤ R →
  rename cellArea T L R v = -1 ↔ v = -1 ∨ survives cellArea T L v = false.
Proof.
  intros Hv. unfold rename. destruct ((1 <=? v) && (v <=? R)) eqn:E.
  - pose proof (newId_ge_1 cellArea T L v).
    destruct (survives cellArea T L v).
    + split; [lia|]. intros [?|?]; [lia | done].
    + split; [by right | done].
  - split; [by left|]. intros [?|Hs]; [done|]. lia.
Qed.

(** X5. Raising the threshold only removes cells: for thresholds T ≤ T' on
    one (rectangular, non-empty) grid, every cell that holds OCCUPIED_MARK
    in the map filtered with T holds it in the map filtered with T', and
    every cell with a region label under T' has one under T. *)
Theorem generateOccupancyMap_threshold_monotone self T T' z precision occ coord :
  physicWorld self z precision = (occ, coord) → np.rect occ → np.size occ ≠ 0%nat →
  (T <= T')%Q →
  ∃ self1 self2 F F',
    generateOccupancyMap self T z precision = Ret (self1, (F, coord)) ∧
    generateOccupancyMap self T' z precision = Ret (self2, (F', coord)) ∧
    (∀ c, np.at_ F c = Some OCCUPIED_MARK → np.at_ F' c = Some OCCUPIED_MARK) ∧
    (∀ c k', np.at_ F' c = Some k' → 0 < k' → ∃ k, np.at_ F c = Some k ∧ 0 < k).
Proof.
  intros Hphys Hr Hsize HT.
  destruct (generateOccupancyMap_full self T z precision occ coord Hphys Hr Hsize)
    as (L & R & HL & Hlab & _ & _ & Hgen).
  destruct (generateOccupancyMap_full self T' z precision occ coord Hphys Hr Hsize)
    as (L' & R' & HL' & Hlab' & _ & _ & Hgen').
  assert (L' = L) as -> by congruence.
  assert (∀ c, np.at_ (map (map (rename (precision ^ 2) T L R)) L) c = Some OCCUPIED_MARK →
               np.at_ (map (map (rename (precision ^ 2) T' L R')) L) c = Some OCCUPIED_MARK)
    as Hmono.
  { intros c. rewrite !at_map. destruct (np.at_ L c) as [v|] eqn:Hv; [|done]. simpl.
    intros [= Hm]. f_equal.
    apply (rename_mark _ _ _ _ _ (lb_values _ _ Hlab c v Hv)) in Hm.
    apply (rename_mark _ _ _ _ _ (lb_values _ _ Hlab' c v Hv)).
    destruct Hm as [?|Hs]; [by left | right].
    unfold survives in *. apply negb_false_iff, Qltb_lt in Hs.
    apply negb_false_iff, Qltb_lt. lra. }
  eexists _, _, _, _. split; [exact Hgen|]. split; [exact Hgen'|]. split; [exact Hmono|].
  intros c k' Hk' Hpos. rewrite at_map in Hk'. rewrite at_map.
  destruct (np.at_ L c) as [v|] eqn:Hv; [|done]. simpl in *. injection Hk' as Hk'.
  exists (rename (precision ^ 2) T L R v). split; [done|].
  destruct (F_values (precision ^ 2) T L R Hlab c (rename (precision ^ 2) T L R v))
    as [Hm|?]; [by rewrite at_map, Hv | | lia].
  exfalso. assert (np.at_ (map (map (rename (precision ^ 2) T' L R')) L) c = Some (-1)) as H'.
  { apply Hmono. rewrite at_map, Hv. exact (f_equal Some Hm). }
  rewrite at_map, Hv in H'. simpl in H'. injection H' as H'. lia.
Qed.

Lemma generateOccupancyMap_threshold_monotone_witness :
  physicWorld exampleEnv 1 1 = (exampleGrid, exampleCoords) ∧
  np.rect exampleGrid ∧ np.size exampleGrid ≠ 0%nat ∧ (2 <= 5)%Q ∧
  ∃ self1 self2 F F',
    generateOccupancyMap exampleEnv 2 1 1 = Ret (self1, (F, exampleCoords)) ∧
    generateOccupancyMap exampleEnv 5 1 1 = Ret (self2, (F', exampleCoords)) ∧
    (∀ c, np.at_ F c = Some OCCUPIED_MARK → np.at_ F' c = Some OCCUPIED_MARK) ∧
    (∀ c k', np.at_ F' c = Some k' → 0 < k' → ∃ k, np.at_ F c = Some k ∧ 0 < k).
Proof.
  assert (2 <= 5)%Q as HT by (by vm_compute).
  split; [reflexivity|]. split; [exact exampleGrid_rect|]. split; [exact exampleGrid_size|].
  split; [exact HT|].
  exact (generateOccupancyMap_threshold_monotone exampleEnv 2 5 1 1 exampleGrid
           exampleCoords eq_refl exampleGrid_rect exampleGrid_size HT).
Defined.

(** A cell of the filtered map with a region label: where its label comes
    from. *)
Lemma filtered_positive occ L R ca T c k :
  labelled L R → labelInv (markOccupied occ) L (R + 1) →
  np.at_ (map (map (rename ca T L R)) L) c = Some k → 0 < k →
  ∃ v, np.at_ L c = Some v ∧ 1 ≤ v ≤ R ∧ survives ca T L v = true ∧
       k = newId ca T L v ∧ isFree occ c.
Proof.
  intros Hlab HI Hk Hk0. pose proof (markOccupied_binary occ) as Hb.
  rewrite at_map in Hk.
  destruct (np.at_ L c) as [v|] eqn:Hv; [|done]. injection Hk as Hk.
  destruct (rename_positive ca T L R v k (lb_values _ _ Hlab c v Hv) Hk Hk0)
    as (Hv1 & HS & ->).
  exists v. split_and!; [done | lia | lia | done | done |].
  destruct (li_dom _ _ _ HI c) as [w Hw]; [eauto|].
  destruct (Hb _ _ Hw) as [->| ->]; [|by apply markOccupied_free].
  apply (li_occ _ _ _ HI) in Hw. assert (v = -1) by congruence. lia.
Qed.

(** X6. The regions of the filtered map are regions of the input: on a
    (rectangular, non-empty) grid, every OCCUPIED cell holds OCCUPIED_MARK
    in the map [generateOccupancyMap] returns, every cell with a region
    label is FREE in the input, and two cells with region labels hold the
    same label exactly when a path of 4-adjacent FREE cells joins them. *)
Theorem generateOccupancyMap_regions self T z precision occ coord :
  physicWorld self z precision = (occ, coord) → np.rect occ → np.size occ ≠ 0%nat →
  ∃ self1 F,
    generateOccupancyMap self T z precision = Ret (self1, (F, coord)) ∧
    (∀ c, isOccupied occ c → np.at_ F c = Some OCCUPIED_MARK) ∧
    (∀ c k, np.at_ F c = Some k → 0 < k → isFree occ c) ∧
    (∀ a b ka kb, np.at_ F a = Some ka → np.at_ F b = Some kb → 0 < ka → 0 < kb →
                  (ka = kb ↔ connected occ a b)).
Proof.
  intros Hphys Hr Hsize.
  destruct (generateOccupancyMap_full self T z precision occ coord Hphys Hr Hsize)
    as (L & R & HL & Hlab & HI & Hnz & Hgen).
  pose proof (markOccupied_binary occ) as Hb.
  set (ca := (precision ^ 2)%Q) in *.
  pose proof (filtered_positive occ L R ca T) as Hpos.
  specialize (λ c k, Hpos c k Hlab HI).
  eexists _, _. split; [exact Hgen|]. split_and!.
  - intros c Hc%markOccupied_occupied. apply (li_occ _ _ _ HI) in Hc.
    by rewrite at_map, Hc.
  - intros c k Hk Hk0. by destruct (Hpos c k Hk Hk0) as (v & _ & _ & _ & _ & ?).
  - intros a b ka kb Ha Hb' Hka Hkb.
    destruct (Hpos a ka Ha Hka) as (va & Hva & Hva1 & HSa & -> & _).
    destruct (Hpos b kb Hb' Hkb) as (vb & Hvb & Hvb1 & HSb & -> & _).
    split.
    + intros Heq. apply (newId_inj ca T L) in Heq; [|lia | lia | done | done]. subst vb.
      apply connected_markOccupied. apply (li_sound _ _ _ HI a b va); [done | done | lia].
    + intros Hab%connected_markOccupied.
      pose proof (labelInv_connected _ _ _ a b va HI Hab Hva ltac:(lia)) as Hvb'.
      assert (vb = va) as -> by congruence. done.
Qed.

Lemma generateOccupancyMap_regions_witness :
  physicWorld exampleEnv 1 1 = (exampleGrid, exampleCoords) ∧
  np.rect exampleGrid ∧ np.size exampleGrid ≠ 0%nat ∧
  ∃ self1 F,
    generateOccupancyMap exampleEnv 2 1 1 = Ret (self1, (F, exampleCoords)) ∧
    (∀ c, isOccupied exampleGrid c → np.at_ F c = Some OCCUPIED_MARK) ∧
    (∀ c k, np.at_ F c = Some k → 0 < k → isFree exampleGrid c) ∧
    (∀ a b ka kb, np.at_ F a = Some ka → np.at_ F b = Some kb → 0 < ka → 0 < kb →
                  (ka = kb ↔ connected exampleGrid a b)).
Proof.
  split; [reflexivity|]. split; [exact exampleGrid_rect|]. split; [exact exampleGrid_size|].
  exact (generateOccupancyMap_regions exampleEnv 2 1 1 exampleGrid exampleCoords
           eq_refl exampleGrid_rect exampleGrid_size).
Defined.

(** ** Grids without cells, and thresholds no region reaches *)

Lemma size_0_no_cell {A} (a : np.ndarray A) c : np.size a = 0%nat → np.at_ a c = None.
Proof.
  intros Hs. destruct (np.at_ a c) as [x|] eqn:Hc; [|done].
  by apply cells_nonempty in Hc.
Qed.

Lemma np_max_empty (a : np.ndarray Z) : np.size a = 0%nat → np.max a = Raise "ValueError".
Proof.
  unfold np.size, np.max. by destruct (concat a).
Qed.

Lemma generateOccupancyMap_size_0 self T z precision occ coord :
  physicWorld self z precision = (occ, coord) → np.size occ = 0%nat →
  generateOccupancyMap self T z precision = Raise "ValueError".
Proof.
  intros Hphys Hsize. unfold generateOccupancyMap. rewrite Hphys.
  rewrite extractAllRegions_no_free by (intros c; by rewrite (size_0_no_cell occ c Hsize)).
  rewrite bind_Ret, np_max_empty; [done|]. by rewrite size_map.
Qed.

(** X7. A grid without cells has no maximum: when the occupancy map of the
    backend has size 0, [generateOccupancyMap] raises the ValueError of
    [np.max] on the empty label grid, and so does every call of
    [generateSpawnPositions]. *)
Theorem generateOccupancyMap_empty_grid self T z precision occ coord :
  physicWorld self z precision = (occ, coord) → np.size occ = 0%nat →
  generateOccupancyMap self T z precision = Raise "ValueError" ∧
  ∀ n g, generateSpawnPositions self n T z precision g = Raise "ValueError".
Proof.
  intros Hphys Hsize.
  pose proof (generateOccupancyMap_size_0 self T z precision occ coord Hphys Hsize) as Hgen.
  split; [done|]. intros n g. unfold generateSpawnPositions. by rewrite Hgen.
Qed.

Lemma generateOccupancyMap_empty_grid_witness :
  physicWorld (mkEnv (λ _ _, ([[]], [[]])) None None) 1 1 = ([[]], [[]]) ∧
  np.size ([[]] : np.ndarray Z) = 0%nat ∧
  generateOccupancyMap (mkEnv (λ _ _, ([[]], [[]])) None None) 10 1 1 = Raise "ValueError" ∧
  ∀ n g, generateSpawnPositions (mkEnv (λ _ _, ([[]], [[]])) None None) n 10 1 1 g
         = Raise "ValueError".
Proof.
  split; [reflexivity|]. split; [reflexivity|].
  exact (generateOccupancyMap_empty_grid (mkEnv (λ _ _, ([[]], [[]])) None None)
           10 1 1 [[]] [[]] eq_refl eq_refl).
Defined.





(** ** What a returning call of generateSpawnPositions has done *)

Lemma selectRegion_inv s g sel g1 :
  selectRegion s g = Ret (sel, g1) →
  ((length s ≤ 1)%nat ∧ sel = 1 ∧ g1 = g) ∨
  ((1 < length s)%nat ∧ 2 ≤ sel ∧ g1 = (random g).2).
Proof.
  unfold selectRegion. destruct (1 <? Z.of_nat (length s)) eqn:E.
  - unfold random. cbn [fst snd].
    pose proof (last_argwhere1_from 0 (map (λ x, flt x (Qfrac (floatTape g (floatPos g)))) s))
      as Hl.
    unfold np.argwhere1.
    destruct (last (np.argwhere1_from 0 _)) as [k|]; [|done].
    intros [= <- <-]. right. split; [lia|]. split; [lia | done].
  - intros [= <- <-]. left. split; [lia | done].
Qed.

Lemma drawPosition_inv F (coord : CoordMap) s g xy g2 :
  drawPosition F coord s g = Ret (xy, g2) →
  ∃ sel g1 c, selectRegion s g = Ret (sel, g1) ∧
              np.at_ F c = Some sel ∧ np.at_ coord c = Some xy ∧
              g2 = afterInts g1 1.
Proof.
  unfold drawPosition.
  destruct (selectRegion s g) as [[sel g1]| |] eqn:Hsel; [|done..]. rewrite bind_Ret.
  unfold randint. destruct (0 <? _) eqn:E; [|done]. rewrite bind_Ret.
  destruct (_ !! _) as [[i j]|] eqn:Hij; [|done].
  destruct (np.getitem coord i j) as [xy'|] eqn:Hxy; [|done].
  intros [= <- <-]. exists sel, g1, (i, j). split_and!; [done | | done |].
  - apply elem_of_argwhere_eq. by apply list_elem_of_lookup_2 in Hij.
  - unfold afterInts. f_equal. lia.
Qed.

Lemma drawPositions_inv n F (coord : CoordMap) s acc g ps g' :
  drawPositions n F coord s acc g = Ret (ps, g') →
  ∃ new, ps = acc ++ new ∧ length new = n ∧
    Forall (λ xy, ∃ c sel, np.at_ F c = Some sel ∧ np.at_ coord c = Some xy ∧
                    if 1 <? Z.of_nat (length s) then 2 ≤ sel else sel = 1) new ∧
    floatTape g' = floatTape g ∧ intTape g' = intTape g ∧
    intPos g' = (intPos g + n)%nat ∧
    floatPos g' = Nat.add (floatPos g) (if 1 <? Z.of_nat (length s) then n else 0%nat).
Proof.
  revert acc g. induction n as [|n IH]; intros acc g; cbn [drawPositions].
  - intros [= <- <-]. exists []. rewrite app_nil_r.
    split_and!; [done | done | constructor | done | done | lia |].
    destruct (1 <? _); lia.
  - destruct (drawPosition F coord s g) as [[xy g1]| |] eqn:Hd; [|done..].
    rewrite bind_Ret. intros Hrest.
    destruct (IH _ _ Hrest) as (new & -> & Hlen & Hall & Hft & Hit & Hip & Hfp).
    destruct (drawPosition_inv _ _ _ _ _ _ Hd) as (sel & g0 & c & Hsel & HF & Hc & ->).
    exists (xy :: new). rewrite <- app_assoc. split; [done|]. split; [simpl; lia|].
    clear IH. revert Hall Hfp.
    apply selectRegion_inv in Hsel as [(Hs & -> & ->)|(Hs & Hs2 & ->)];
      destruct (1 <? Z.of_nat (length s)) eqn:E; try (exfalso; lia); intros Hall Hfp.
    + split_and!; [|done | done | simpl in *; lia | simpl in *; lia].
      constructor; [|done]. by exists c, 1.
    + split_and!; [|done | done | simpl in *; lia | simpl in *; lia].
      constructor; [|done]. by exists c, sel.
Qed.

Lemma generateSpawnPositions_inv self n T z precision g self' g' occMap coord positions :
  generateSpawnPositions self n T z precision g = Ret (self', g', (occMap, coord, positions)) →
  ∃ F nb,
    generateOccupancyMap self T z precision = Ret (self', (F, coord)) ∧
    labeledNavMap self' = Some F ∧ np.max F = Ret nb ∧
    drawPositions (Z.to_nat n) F coord
      (cumulativeShares (regionAreasOf F (precision ^ 2) nb)) [] g = Ret (positions, g') ∧
    occMap = np.mask_assign (np.zeros_like F) (np.eq F (-1)) 1%Q.
Proof.
  intros Hret. unfold generateSpawnPositions in Hret.
  destruct (generateOccupancyMap self T z precision) as [[self1 [F cmap]]| |] eqn:Hgen;
    [|done..].
  rewrite bind_Ret in Hret. pose proof (generateOccupancyMap_Ret _ _ _ _ _ _ _ Hgen) as ->.
  cbn [labeledNavMap occupancyMapCoord attr] in Hret. rewrite !bind_Ret in Hret.
  unfold samplePhase in Hret.
  destruct (np.max F) as [nb| |] eqn:Hnb; [|done..]. rewrite bind_Ret in Hret.
  destruct (drawPositions _ _ _ _ _ _) as [[ps g1]| |] eqn:Hd; [|done..].
  rewrite !bind_Ret in Hret. injection Hret as <- <- <- <- <-.
  by exists F, nb.
Qed.

(** What a returning call of [generateOccupancyMap] on a rectangular grid
    has computed. *)
Lemma generateOccupancyMap_inv self T z precision occ cm self1 F coord :
  physicWorld self z precision = (occ, cm) → np.rect occ →
  generateOccupancyMap self T z precision = Ret (self1, (F, coord)) →
  np.size occ ≠ 0%nat ∧ coord = cm ∧
  ∃ L R, extractAllRegions occ = Ret L ∧ labelled L R ∧
         labelInv (markOccupied occ) L (R + 1) ∧
         F = map (map (rename (precision ^ 2) T L R)) L.
Proof.
  intros Hphys Hr Hgen.
  assert (np.size occ ≠ 0%nat) as Hsize.
  { intros Hs. by rewrite (generateOccupancyMap_size_0 _ _ _ _ _ _ Hphys Hs) in Hgen. }
  destruct (generateOccupancyMap_full self T z precision occ cm Hphys Hr Hsize)
    as (L & R & HL & Hlab & HI & _ & Hgen').
  rewrite Hgen' in Hgen. injection Hgen as <- <- <-.
  split; [done|]. split; [done|]. by exists L, R.
Qed.

(** X9. The positions of a returning call (on a rectangular grid): there
    are [n] of them (none for [n ≤ 0]), and each is the entry of the
    coordinate map at a cell that is FREE in the occupancy map of the backend
    and carries a region label, 1 or more, in the filtered map. *)
Theorem generateSpawnPositions_positions self n T z precision g occ cm
    self' g' occMap coord positions :
  physicWorld self z precision = (occ, cm) → np.rect occ →
  generateSpawnPositions self n T z precision g = Ret (self', g', (occMap, coord, positions)) →
  ∃ F, labeledNavMap self' = Some F ∧
       length positions = Z.to_nat n ∧
       Forall (λ xy, ∃ c k, isFree occ c ∧ np.at_ F c = Some k ∧ 1 ≤ k ∧
                            np.at_ cm c = Some xy) positions.
Proof.
  intros Hphys Hr Hret.
  destruct (generateSpawnPositions_inv _ _ _ _ _ _ _ _ _ _ _ Hret)
    as (F & nb & Hgen & Hnav & Hnb & Hd & _).
  destruct (generateOccupancyMap_inv _ _ _ _ _ _ _ _ _ Hphys Hr Hgen)
    as (_ & -> & L & R & _ & Hlab & HI & ->).
  apply drawPositions_inv in Hd as (new & -> & Hlen & Hall & _).
  eexists. split; [exact Hnav|]. split; [done|]. simpl.
  eapply Forall_impl; [exact Hall|]. intros xy (c & sel & Hc & Hxy & Hsel). cbv beta in *.
  assert (1 ≤ sel) as Hpos by (destruct (1 <? _); lia).
  destruct (filtered_positive occ L R _ T c sel Hlab HI Hc) as (_ & _ & _ & _ & _ & Hfree);
    [lia|].
  by exists c, sel.
Qed.

Lemma generateSpawnPositions_positions_witness :
  physicWorld exampleEnv 1 1 = (exampleGrid, exampleCoords) ∧ np.rect exampleGrid ∧
  ∃ self' g' occMap positions,
    generateSpawnPositions exampleEnv 3 2 1 1 (constantRandom (9 # 10))
      = Ret (self', g', (occMap, exampleCoords, positions)) ∧
    ∃ F, labeledNavMap self' = Some F ∧
         length positions = Z.to_nat 3 ∧
         Forall (λ xy, ∃ c k, isFree exampleGrid c ∧ np.at_ F c = Some k ∧ 1 ≤ k ∧
                              np.at_ exampleCoords c = Some xy) positions.
Proof.
  split; [reflexivity|]. split; [exact exampleGrid_rect|].
  eexists _, _, _, _. split; [vm_compute; reflexivity|].
  refine (generateSpawnPositions_positions exampleEnv 3 2 1 1 (constantRandom (9 # 10))
            exampleGrid exampleCoords _ _ _ _ _ eq_refl exampleGrid_rect _).
  vm_compute. reflexivity.
Defined.

Lemma extractAllRegions_size occ L :
  np.rect occ → extractAllRegions occ = Ret L → np.size L = np.size occ.
Proof.
  intros Hr HL. destruct (extractAllRegions_labelled occ Hr) as (L' & R & HL' & _ & Hsz & _).
  congruence.
Qed.

(** X10. Asked for no position ([n ≤ 0], an empty [range(n)]), the call on
    a (rectangular, non-empty) grid returns the occupancy map and the
    coordinate map with an empty list of positions, whatever regions are
    left, and leaves the random source as it was. *)
Theorem generateSpawnPositions_no_draw self n T z precision g occ coord :
  physicWorld self z precision = (occ, coord) → np.rect occ → np.size occ ≠ 0%nat →
  n ≤ 0 →
  ∃ self1 F,
    generateOccupancyMap self T z precision = Ret (self1, (F, coord)) ∧
    generateSpawnPositions self n T z precision g =
    Ret (self1, g,
         (map (map (λ v, if v =? OCCUPIED_MARK then 1%Q else 0%Q)) F, coord, [])).
Proof.
  intros Hphys Hr Hsize Hn.
  destruct (generateOccupancyMap_full self T z precision occ coord Hphys Hr Hsize)
    as (L & R & HL & Hlab & _ & _ & Hgen).
  eexists _, _. split; [exact Hgen|].
  rewrite (generateSpawnPositions_unfold _ _ _ _ _ _ _ _ _ Hgen). unfold samplePhase.
  destruct (np_max_is_Ret (map (map (rename (precision ^ 2) T L R)) L)) as [nb Hnb].
  { rewrite size_map, (extractAllRegions_size occ L Hr HL). done. }
  rewrite Hnb, bind_Ret. replace (Z.to_nat n) with 0%nat by lia. cbn [drawPositions].
  rewrite !bind_Ret. rewrite mask_zeros_like; [done|].
  apply rect_map, (lb_rect _ _ Hlab).
Qed.

Lemma generateSpawnPositions_no_draw_witness :
  physicWorld exampleEnv 1 1 = (exampleGrid, exampleCoords) ∧
  np.rect exampleGrid ∧ np.size exampleGrid ≠ 0%nat ∧ 0 ≤ 0 ∧
  ∃ self1 F,
    generateOccupancyMap exampleEnv 20 1 1 = Ret (self1, (F, exampleCoords)) ∧
    generateSpawnPositions exampleEnv 0 20 1 1 exampleRandom =
    Ret (self1, exampleRandom,
         (map (map (λ v, if v =? OCCUPIED_MARK then 1%Q else 0%Q)) F, exampleCoords, [])).
Proof.
  split; [reflexivity|]. split; [exact exampleGrid_rect|]. split; [exact exampleGrid_size|].
  split; [lia|].
  exact (generateSpawnPositions_no_draw exampleEnv 0 20 1 1 exampleRandom exampleGrid
           exampleCoords eq_refl exampleGrid_rect exampleGrid_size (Z.le_refl 0)).
Defined.

(** X11. What a returning call takes from [np.random]: one integer for
    each position, and one float for each position when the filtered map
    has more than one region, none otherwise. *)
Theorem generateSpawnPositions_random_draws self n T z precision g
    self' g' occMap coord positions :
  generateSpawnPositions self n T z precision g = Ret (self', g', (occMap, coord, positions)) →
  ∃ F nb,
    labeledNavMap self' = Some F ∧ np.max F = Ret nb ∧
    floatTape g' = floatTape g ∧ intTape g' = intTape g ∧
    intPos g' = (intPos g + Z.to_nat n)%nat ∧
    floatPos g' = Nat.add (floatPos g) (if 1 <? nb then Z.to_nat n else 0%nat).
Proof.
  intros Hret.
  destruct (generateSpawnPositions_inv _ _ _ _ _ _ _ _ _ _ _ Hret)
    as (F & nb & Hgen & Hnav & Hnb & Hd & _).
  apply drawPositions_inv in Hd as (new & _ & _ & _ & Hft & Hit & Hip & Hfp).
  rewrite length_cumulativeShares in Hfp.
  exists F, nb. split_and!; [done..|]. rewrite Hfp. f_equal.
  destruct (1 <? nb) eqn:E1; destruct (1 <? Z.of_nat (Z.to_nat nb)) eqn:E2;
    try done; exfalso;
    [apply Z.ltb_lt in E1; apply Z.ltb_ge in E2 | apply Z.ltb_ge in E1; apply Z.ltb_lt in E2];
    lia.
Qed.

Lemma generateSpawnPositions_random_draws_witness :
  ∃ self' g' occMap positions,
    generateSpawnPositions exampleEnv 3 2 1 1 (constantRandom (9 # 10))
      = Ret (self', g', (occMap, exampleCoords, positions)) ∧
    ∃ F nb,
      labeledNavMap self' = Some F ∧ np.max F = Ret nb ∧
      floatTape g' = floatTape (constantRandom (9 # 10)) ∧
      intTape g' = intTape (constantRandom (9 # 10)) ∧
      intPos g' = (intPos (constantRandom (9 # 10)) + Z.to_nat 3)%nat ∧
      floatPos g' = Nat.add (floatPos (constantRandom (9 # 10)))
                            (if 1 <? nb then Z.to_nat 3 else 0%nat).
Proof.
  eexists _, _, _, _. split; [vm_compute; reflexivity|].
  refine (generateSpawnPositions_random_draws exampleEnv 3 2 1 1 (constantRandom (9 # 10))
            _ _ _ _ _ _).
  vm_compute. reflexivity.
Defined.

(** X12. With more than one region in the filtered map, no position of a
    returning call lies in region 1: every position is the coordinate of a
    cell whose label is 2 or more. *)
Theorem generateSpawnPositions_skips_first_region self n T z precision g
    self' g' occMap coord positions F nb :
  generateSpawnPositions self n T z precision g = Ret (self', g', (occMap, coord, positions)) →
  labeledNavMap self' = Some F → np.max F = Ret nb → 1 < nb →
  Forall (λ xy, ∃ c k, np.at_ F c = Some k ∧ 2 ≤ k ∧ np.at_ coord c = Some xy) positions.
Proof.
  intros Hret Hnav Hnb Hmulti.
  destruct (generateSpawnPositions_inv _ _ _ _ _ _ _ _ _ _ _ Hret)
    as (F' & nb' & Hgen & Hnav' & Hnb' & Hd & _).
  assert (F' = F) as -> by congruence. assert (nb' = nb) as -> by congruence.
  apply drawPositions_inv in Hd as (new & -> & _ & Hall & _).
  rewrite length_cumulativeShares in Hall.
  assert ((1 <? Z.of_nat (Z.to_nat nb)) = true) as E by (apply Z.ltb_lt; lia).
  simpl. eapply Forall_impl; [exact Hall|]. intros xy (c & sel & Hc & Hxy & Hsel).
  cbv beta in Hsel. rewrite E in Hsel. by exists c, sel.
Qed.

Lemma generateSpawnPositions_skips_first_region_witness :
  ∃ self' g' occMap positions F,
    generateSpawnPositions exampleEnv 3 2 1 1 (constantRandom (9 # 10))
      = Ret (self', g', (occMap, exampleCoords, positions)) ∧
    labeledNavMap self' = Some F ∧ np.max F = Ret 2 ∧ 1 < 2 ∧
    Forall (λ xy, ∃ c k, np.at_ F c = Some k ∧ 2 ≤ k ∧ np.at_ exampleCoords c = Some xy)
           positions.
Proof.
  eexists _, _, _, _, _.
  split; [vm_compute; reflexivity|]. split; [reflexivity|]. split; [vm_compute; reflexivity|].
  split; [lia|].
  eapply (generateSpawnPositions_skips_first_region exampleEnv 3 2 1 1
            (constantRandom (9 # 10)));
    [vm_compute; reflexivity | reflexivity | vm_compute; reflexivity | lia].
Defined.

(** ** Draws the selection cannot place *)





(** ** How a call on a rectangular grid can fail *)






(** ** The occupancy map against the map of the backend *)



(** ** The interval of each region *)






(** ** The filter writes to the array of the labelling *)

Lemma InPlace_filterStep_refine (σ : InPlace.store) q cellArea T cv areas r :
  InPlace.filterStep q cellArea T (σ, cv, areas) r =
  (let '(G, cv', areas') := filterStep cellArea T (σ !!! q, cv, areas) r in
   (<[q := G]> σ, cv', areas')).
Proof.
  unfold InPlace.filterStep, filterStep. by destruct (Qltb _ _).
Qed.

Lemma InPlace_filter_refine (σ : InPlace.store) q cellArea T cv areas l :
  is_Some (σ !! q) →
  foldl (InPlace.filterStep q cellArea T) (σ, cv, areas) l =
  (let '(G, cv', areas') := foldl (filterStep cellArea T) (σ !!! q, cv, areas) l in
   (<[q := G]> σ, cv', areas')).
Proof.
  revert σ cv areas. induction l as [|r l IH]; intros σ cv areas [a Ha].
  - simpl. rewrite (lookup_total_correct _ _ _ Ha). by rewrite insert_id.
  - cbn [foldl]. rewrite InPlace_filterStep_refine.
    destruct (filterStep cellArea T (σ !!! q, cv, areas) r) as [[G1 cv1] areas1].
    rewrite IH by (rewrite lookup_insert_eq; eauto). rewrite lookup_total_insert_eq.
    destruct (foldl _ _ l) as [[G cv'] areas']. by rewrite insert_insert_eq.
Qed.

Lemma InPlace_generateOccupancyMap_refine (σ : InPlace.store) p self T z precision coord :
  physicWorld self z precision = (σ !!! p, coord) →
  InPlace.generateOccupancyMap σ p T precision =
  ('(_, (F, _)) ← generateOccupancyMap self T z precision;
   Ret (fresh (dom σ), <[fresh (dom σ) := F]> σ)).
Proof.
  intros Hphys. unfold InPlace.generateOccupancyMap, generateOccupancyMap.
  rewrite Hphys, InPlace_extractAllRegions_refine.
  destruct (extractAllRegions (σ !!! p)) as [L| |]; [|done..]. rewrite !bind_Ret.
  rewrite lookup_total_insert_eq.
  destruct (np.max L) as [nb| |]; [|done..]. rewrite !bind_Ret.
  unfold filterRegions. rewrite InPlace_filter_refine by (rewrite lookup_insert_eq; eauto).
  rewrite lookup_total_insert_eq.
  destruct (foldl _ _ _) as [[G cv] areas]. rewrite lookup_total_insert_eq.
  destruct (np.all (np.ne G 0)); [|done]. rewrite bind_Ret. by rewrite insert_insert_eq.
Qed.

(** X17. [generateOccupancyMap] leaves the occupancy map of the backend as
    it was: with that map at the reference [p], the call on a
    (rectangular, non-empty) grid returns a reference [q] to an array that
    did not exist before, the one [extractAllRegions] allocated and the
    filter then relabelled in place; it holds the filtered map, and the
    store differs from the store before the call at [q] only. *)
Theorem generateOccupancyMap_backend_unchanged (σ : InPlace.store) p self T z precision
    occ coord :
  σ !! p = Some occ → physicWorld self z precision = (occ, coord) →
  np.rect occ → np.size occ ≠ 0%nat →
  ∃ q F σ' self1,
    InPlace.generateOccupancyMap σ p T precision = Ret (q, σ') ∧
    generateOccupancyMap self T z precision = Ret (self1, (F, coord)) ∧
    q ≠ p ∧ σ !! q = None ∧ σ' !! q = Some F ∧ σ' !! p = Some occ ∧
    ∀ p', p' ≠ q → σ' !! p' = σ !! p'.
Proof.
  intros Hp Hphys Hr Hsize.
  destruct (generateOccupancyMap_full self T z precision occ coord Hphys Hr Hsize)
    as (L & R & _ & _ & _ & _ & Hgen).
  rewrite (InPlace_generateOccupancyMap_refine σ p self T z precision coord)
    by (by rewrite (lookup_total_correct _ _ _ Hp)).
  rewrite Hgen, bind_Ret.
  assert (σ !! fresh (dom σ) = None) as Hq by (apply not_elem_of_dom, is_fresh).
  assert (fresh (dom σ) ≠ p) as Hne by congruence.
  eexists _, _, _, _. split; [done|]. split; [done|].
  split_and!; [done | done | | |].
  - apply lookup_insert_eq.
  - by rewrite lookup_insert_ne.
  - intros p' Hp'. by rewrite lookup_insert_ne.
Qed.

Lemma generateOccupancyMap_backend_unchanged_witness :
  exampleStore !! 1%positive = Some exampleGrid ∧
  physicWorld exampleEnv 1 1 = (exampleGrid, exampleCoords) ∧
  np.rect exampleGrid ∧ np.size exampleGrid ≠ 0%nat ∧
  ∃ q F σ' self1,
    InPlace.generateOccupancyMap exampleStore 1%positive 2 1 = Ret (q, σ') ∧
    generateOccupancyMap exampleEnv 2 1 1 = Ret (self1, (F, exampleCoords)) ∧
    q ≠ 1%positive ∧ exampleStore !! q = None ∧ σ' !! q = Some F ∧
    σ' !! 1%positive = Some exampleGrid ∧
    ∀ p', p' ≠ q → σ' !! p' = exampleStore !! p'.
Proof.
  split; [reflexivity|]. split; [reflexivity|]. split; [exact exampleGrid_rect|].
  split; [exact exampleGrid_size|].
  exact (generateOccupancyMap_backend_unchanged exampleStore 1%positive exampleEnv 2 1 1
           exampleGrid exampleCoords eq_refl eq_refl exampleGrid_rect exampleGrid_size).
Defined.

(** ** Draws above the first share *)




